(** * NetworkXJS: the strict undirected [Graph] container

    A shallow embedding of the [Graph] class (adjacency [Map] of [Set]s, a
    [Map] of node attribute objects and a [Map] of edge attribute objects keyed
    by a string built from the two endpoints), followed by the properties of
    the container that its specification states. *)

From Stdlib Require Import ZArith Ascii String.
From Stdlib Require Import DecimalString DecimalPos DecimalZ.
From stdpp Require Import gmap strings list fin_maps.

Local Open Scope string_scope.
Local Set Warnings "-clear-no-such-hyp".

(** ** JavaScript values used as node identifiers *)

(** The values a caller can hand to the container.  Numbers are the integers
    (rendered by a template literal as their decimal numeral, which is what
    JavaScript prints for integers of magnitude below 10^21) and [NaN], which
    is what [Number] yields on text that is no numeral.  A value of any other
    kind ([undefined], [null], a boolean, an object ...) is represented by the
    text that a template literal renders it as. *)
Inductive value :=
  | VNum (n : Z)
  | VNaN
  | VStr (s : string)
  | VOther (shown : string).

Global Instance value_eq_dec : EqDecision value.
Proof. solve_decision. Defined.

Definition value_code (v : value) : Z + unit + string + string :=
  match v with
  | VNum n => inl (inl (inl n))
  | VNaN => inl (inl (inr ()))
  | VStr s => inl (inr s)
  | VOther s => inr s
  end.

Definition value_decode (c : Z + unit + string + string) : value :=
  match c with
  | inl (inl (inl n)) => VNum n
  | inl (inl (inr _)) => VNaN
  | inl (inr s) => VStr s
  | inr s => VOther s
  end.

Global Instance value_countable : Countable value.
Proof.
  apply (inj_countable' value_code value_decode).
  by intros [].
Defined.

Inductive jstype := TNumber | TString | TOtherKind.

Global Instance jstype_eq_dec : EqDecision jstype.
Proof. solve_decision. Defined.

(** [typeof id] *)
Definition typeof (v : value) : jstype :=
  match v with
  | VNum _ | VNaN => TNumber
  | VStr _ => TString
  | VOther _ => TOtherKind
  end.

(** The decimal numeral of an integer, as [String(n)] prints it. *)
Definition numeral (n : Z) : string := NilZero.string_of_int (Z.to_int n).

(** [`${id}`] *)
Definition toStr (v : value) : string :=
  match v with
  | VNum n => numeral n
  | VNaN => "NaN"
  | VStr s => s
  | VOther s => s
  end.

(** [Number(s)] on a piece of text: zero for the empty text, and the integer
    a decimal numeral denotes.  Text of any other form is read as [NaN]; the
    forms that JavaScript reads as other numbers (fractions, exponents, radix
    prefixes, blanks) are never rendered from an integer identifier. *)
Definition Number (s : string) : value :=
  match s with
  | EmptyString => VNum 0
  | _ => match NilZero.int_of_string s with
         | Some d => VNum (Z.of_int d)
         | None => VNaN
         end
  end.

(** ** String primitives *)

(** [s.startsWith(p)] *)
Fixpoint startsWith (p s : string) : bool :=
  match p, s with
  | EmptyString, _ => true
  | String a p', String b s' => if Ascii.eqb a b then startsWith p' s' else false
  | String _ _, EmptyString => false
  end.

(** [s.slice(n)] for a non-negative [n] *)
Fixpoint slice (n : nat) (s : string) : string :=
  match n, s with
  | O, _ => s
  | S n', String _ s' => slice n' s'
  | S _, EmptyString => EmptyString
  end.

(** [s.split(c)] for a one-character separator: every piece, in order. *)
Fixpoint split (c : ascii) (s : string) : list string :=
  match s with
  | EmptyString => [EmptyString]
  | String a r =>
      if Ascii.eqb a c then EmptyString :: split c r
      else match split c r with
           | h :: t => String a h :: t
           | [] => [String a EmptyString]
           end
  end.

(** [[a, b].sort()]: the default comparison orders strings by their code
    units, so the pair is swapped exactly when [a] is greater than [b]. *)
Definition sort2 (a b : string) : string * string :=
  match String.compare a b with
  | Gt => (b, a)
  | _ => (a, b)
  end.

Definition pipe : ascii := "|"%char.

(** ** Attribute objects *)

(** An attribute object: its fields (the field values are JavaScript values
    again), and an identity that tells two objects with equal fields apart
    ([===] compares identities).  Every attribute object of the container is
    referenced from exactly one map entry, so the entry holds the object
    itself. *)
Record obj := mkObj { oid : nat; fields : gmap string value }.

Global Instance obj_eq_dec : EqDecision obj.
Proof. solve_decision. Defined.

(** ** The container *)

Record Graph := mkGraph {
  adj : gmap value (gset value);
  nodesData : gmap value obj;
  edgesData : gmap string obj;
  next_oid : nat
}.

(** [new Graph()] *)
Definition empty_graph : Graph :=
  {| adj := ∅; nodesData := ∅; edgesData := ∅; next_oid := 0 |}.

(** The errors an operation can throw.  The source throws [Error] objects that
    differ by message; the constructors name the messages: "Invalid node id",
    "already exists", "does not exist" (for nodes, with the node named),
    "no edge between" / "Edge does not exist between".  [TypeError] is what the
    runtime throws when a method is called on [undefined]. *)
Inductive error :=
  | InvalidIdentifier (id : value)
  | DuplicateNode (id : value)
  | NodeNotFound (id : value)
  | EdgeNotFound (u v : value)
  | TypeError.

Inductive result (A : Type) :=
  | Ok (a : A)
  | Throw (e : error).
Arguments Ok {A} a.
Arguments Throw {A} e.

(** A method body: it runs on the container and either returns or throws,
    and in both cases leaves the container in some state. *)
Definition M (A : Type) : Type := Graph → result A * Graph.

Definition ret {A} (a : A) : M A := λ g, (Ok a, g).
Definition throw {A} (e : error) : M A := λ g, (Throw e, g).
Definition bind {A B} (m : M A) (k : A → M B) : M B :=
  λ g, match m g with
       | (Ok a, g') => k a g'
       | (Throw e, g') => (Throw e, g')
       end.
Definition get : M Graph := λ g, (Ok g, g).

Notation "'let*' x := m 'in' k" := (bind m (λ x, k))
  (at level 10, x name, m at level 100, k at level 200).
Notation "m ;;; k" := (bind m (λ _, k))
  (at level 100, k at level 200, right associativity).

(** Assignments made through [this]. *)
Definition with_adj (a : gmap value (gset value)) (g : Graph) : Graph :=
  {| adj := a; nodesData := nodesData g;
     edgesData := edgesData g; next_oid := next_oid g |}.
Definition with_nodesData (n : gmap value obj) (g : Graph) : Graph :=
  {| adj := adj g; nodesData := n;
     edgesData := edgesData g; next_oid := next_oid g |}.
Definition with_edgesData (e : gmap string obj) (g : Graph) : Graph :=
  {| adj := adj g; nodesData := nodesData g;
     edgesData := e; next_oid := next_oid g |}.
Definition with_next_oid (n : nat) (g : Graph) : Graph :=
  {| adj := adj g; nodesData := nodesData g;
     edgesData := edgesData g; next_oid := n |}.

Definition set_adj (a : gmap value (gset value)) : M unit :=
  λ g, (Ok (), with_adj a g).
Definition set_nodesData (n : gmap value obj) : M unit :=
  λ g, (Ok (), with_nodesData n g).
Definition set_edgesData (e : gmap string obj) : M unit :=
  λ g, (Ok (), with_edgesData e g).

(** [{ ...attr }]: a new object with the fields of [attr]. *)
Definition spread (attr : gmap string value) : M obj :=
  λ g, (Ok {| oid := next_oid g; fields := attr |},
        with_next_oid (S (next_oid g)) g).

(** [Object.assign(target, attr)]: every field of [attr] is written into
    [target], which keeps its identity and its other fields. *)
Definition assign (target : obj) (attr : gmap string value) : obj :=
  {| oid := oid target; fields := attr ∪ fields target |}.

(** [this.adj.get(u)] followed by a method call on the result: a [TypeError]
    when the map has no entry for [u]. *)
Definition adj_get (u : value) : M (gset value) :=
  let* g := get in
  match adj g !! u with
  | Some s => ret s
  | None => throw TypeError
  end.

(** [this.adj.get(u).add(v)]: the set stored for [u] gains [v]. *)
Definition adj_add (u v : value) : M unit :=
  let* _ := adj_get u in
  let* g := get in
  set_adj (alter (λ s, {[v]} ∪ s) u (adj g)).

(** [this.adj.get(u).delete(v)]: the set stored for [u] loses [v]. *)
Definition adj_delete (u v : value) : M unit :=
  let* _ := adj_get u in
  let* g := get in
  set_adj (alter (λ s, s ∖ {[v]}) u (adj g)).

(** [Graph._checkValidId] *)
Definition _checkValidId (id : value) : M unit :=
  match typeof id with
  | TString | TNumber => ret ()
  | TOtherKind => throw (InvalidIdentifier id)
  end.

(** [Graph._typedId] *)
Definition _typedId (id : value) : string :=
  match typeof id with
  | TNumber => "n:" +:+ toStr id
  | _ => "s:" +:+ toStr id
  end.

(** [Graph._edgeKey] *)
Definition _edgeKey (u v : value) : string :=
  let keyU := _typedId u in
  let keyV := _typedId v in
  let sorted := sort2 keyU keyV in
  sorted.1 +:+ "|" +:+ sorted.2.

(** [Graph.addNode] *)
Definition addNode (id : value) (attr : gmap string value) : M unit :=
  _checkValidId id;;;
  let* g := get in
  if bool_decide (is_Some (adj g !! id)) then throw (DuplicateNode id)
  else
    set_adj (<[id := ∅]> (adj g));;;
    let* o := spread attr in
    let* g := get in
    set_nodesData (<[id := o]> (nodesData g)).

(** An element of the sequence given to [addNodesFrom]: an array
    [[nid, attr]] (a shorter array leaves [nid] [undefined] or [attr]
    missing), or any other value. *)
Inductive item :=
  | Arr (nid : value) (attr : option (gmap string value))
  | Bare (id : value).

Definition addItem (it : item) : M unit :=
  match it with
  | Arr nid attr => addNode nid (default ∅ attr)
  | Bare id => addNode id ∅
  end.

(** [Graph.addNodesFrom] *)
Fixpoint addNodesFrom (nodeData : list item) : M unit :=
  match nodeData with
  | [] => ret ()
  | it :: rest => addItem it;;; addNodesFrom rest
  end.

(** [Graph.hasNode] *)
Definition hasNode (id : value) : M bool :=
  let* g := get in ret (bool_decide (is_Some (adj g !! id))).

(** [Graph.node]: [Map.get] yields [undefined] ([None]) on a missing key. *)
Definition node (id : value) : M (option obj) :=
  let* g := get in
  if negb (bool_decide (is_Some (adj g !! id))) then throw (NodeNotFound id)
  else ret (nodesData g !! id).

(** The loop of [removeNode] over the neighbour set of [id].  The iterator
    walks the set object stored for [id], which the body can change but never
    replaces: [pending] is what the set held, in iteration order, when the
    loop started, and an element deleted from the set before the iterator
    reaches it is not visited. *)
Fixpoint removeNode_loop (id : value) (pending : list value) : M unit :=
  match pending with
  | [] => ret ()
  | nbr :: rest =>
      let* g := get in
      if bool_decide (nbr ∈ default ∅ (adj g !! id)) then
        adj_delete nbr id;;;
        (let* g := get in
         set_edgesData (delete (_edgeKey id nbr) (edgesData g)));;;
        removeNode_loop id rest
      else removeNode_loop id rest
  end.

(** [Graph.removeNode] *)
Definition removeNode (id : value) : M unit :=
  let* g := get in
  if negb (bool_decide (is_Some (adj g !! id))) then throw (NodeNotFound id)
  else
    let* s := adj_get id in
    removeNode_loop id (elements s);;;
    (let* g := get in set_adj (delete id (adj g)));;;
    let* g := get in set_nodesData (delete id (nodesData g)).

(** [Graph.addEdge] *)
Definition addEdge (u v : value) (attr : gmap string value) : M unit :=
  _checkValidId u;;;
  _checkValidId v;;;
  let* g := get in
  if negb (bool_decide (is_Some (adj g !! u))) then throw (NodeNotFound u)
  else if negb (bool_decide (is_Some (adj g !! v))) then throw (NodeNotFound v)
  else
    adj_add u v;;;
    adj_add v u;;;
    let ek := _edgeKey u v in
    let* g := get in
    match edgesData g !! ek with
    | None =>
        let* o := spread attr in
        let* g := get in
        set_edgesData (<[ek := o]> (edgesData g))
    | Some o => set_edgesData (<[ek := assign o attr]> (edgesData g))
    end.

(** [Graph.hasEdge] *)
Definition hasEdge (u v : value) : M bool :=
  let* g := get in
  if negb (bool_decide (is_Some (adj g !! u))) then ret false
  else
    let* s := adj_get u in
    ret (bool_decide (v ∈ s)).

(** [Graph.edge] *)
Definition edge (u v : value) : M (option obj) :=
  let* b := hasEdge u v in
  if negb b then throw (EdgeNotFound u v)
  else
    let* g := get in ret (edgesData g !! _edgeKey u v).

(** [Graph.removeEdge] *)
Definition removeEdge (u v : value) : M unit :=
  let* b := hasEdge u v in
  if negb b then throw (EdgeNotFound u v)
  else
    adj_delete u v;;;
    adj_delete v u;;;
    let* g := get in
    set_edgesData (delete (_edgeKey u v) (edgesData g)).

(** [Graph.neighbors].  The order of the sequence (insertion order in the
    source) is not part of the model: the elements come in the order of the
    set's representation. *)
Definition neighbors (id : value) : M (list value) :=
  let* g := get in
  if negb (bool_decide (is_Some (adj g !! id))) then throw (NodeNotFound id)
  else
    let* s := adj_get id in ret (elements s).

(** [Graph.numberOfNodes] *)
Definition numberOfNodes : M nat :=
  let* g := get in ret (size (adj g)).

(** [Graph.nodes], in the order of the map's representation. *)
Definition nodes : M (list value) :=
  let* g := get in ret (elements (dom (adj g))).

(** [Graph.numberOfEdges] *)
Definition numberOfEdges : M nat :=
  let* g := get in ret (size (edgesData g)).

(** The endpoint that [edges] reads back from one piece of a key. *)
Definition untyped (typed : string) : value :=
  if startsWith "n:" typed then Number (slice 2 typed)
  else VStr (slice 2 typed).

(** The body of the loop of [edges] for one entry; the pieces after the
    second are dropped by the destructuring, and with fewer than two pieces
    [vTyped] is [undefined]. *)
Definition edges_entry (e : string * obj) : M (value * value * obj) :=
  match split pipe e.1 with
  | uTyped :: vTyped :: _ => ret (untyped uTyped, untyped vTyped, e.2)
  | _ => throw TypeError
  end.

Fixpoint edges_loop (entries : list (string * obj))
    : M (list (value * value * obj)) :=
  match entries with
  | [] => ret []
  | e :: rest =>
      let* t := edges_entry e in
      let* ts := edges_loop rest in
      ret (t :: ts)
  end.

(** [Graph.edges], over the entries in the order of the map's
    representation. *)
Definition edges : M (list (value * value * obj)) :=
  let* g := get in edges_loop (map_to_list (edgesData g)).

(** ** The operations a caller can use to change a container *)

Inductive op :=
  | OpAddNode (id : value) (attr : gmap string value)
  | OpAddNodesFrom (nodeData : list item)
  | OpRemoveNode (id : value)
  | OpAddEdge (u v : value) (attr : gmap string value)
  | OpRemoveEdge (u v : value).

Definition run_op (o : op) : M unit :=
  match o with
  | OpAddNode id attr => addNode id attr
  | OpAddNodesFrom nodeData => addNodesFrom nodeData
  | OpRemoveNode id => removeNode id
  | OpAddEdge u v attr => addEdge u v attr
  | OpRemoveEdge u v => removeEdge u v
  end.

(** The container after a sequence of calls; a call that throws is caught
    by the caller, who goes on with the container as the call left it. *)
Definition exec (ops : list op) (g : Graph) : Graph :=
  foldl (λ g o, (run_op o g).2) g ops.

Definition reachable (g : Graph) : Prop := ∃ ops, g = exec ops empty_graph.

(** ** What the queries compute *)

Definition hasNodeb (g : Graph) (id : value) : bool :=
  bool_decide (is_Some (adj g !! id)).

Definition nbrs (g : Graph) (u : value) : gset value :=
  default ∅ (adj g !! u).

Definition hasEdgeb (g : Graph) (u v : value) : bool :=
  bool_decide (v ∈ nbrs g u).

(** ** Invariants *)

(** Adjacency is symmetric and closed: a neighbour is a node, and lists the
    node back. *)
Definition adj_consistent (g : Graph) : Prop :=
  ∀ u s v, adj g !! u = Some s → v ∈ s →
    ∃ t, adj g !! v = Some t ∧ u ∈ t.

(** Every edge attribute object is stored under the key of two adjacent
    nodes. *)
Definition edges_on_nodes (g : Graph) : Prop :=
  ∀ k o, edgesData g !! k = Some o →
    ∃ u v s, adj g !! u = Some s ∧ v ∈ s ∧ k = _edgeKey u v.

(** The adjacency map and the node attribute map have the same keys. *)
Definition same_keys (g : Graph) : Prop :=
  dom (adj g) = dom (nodesData g).

(** Only numbers and strings are nodes. *)
Definition ids_valid (g : Graph) : Prop :=
  ∀ u, is_Some (adj g !! u) → typeof u ≠ TOtherKind.

(** Identities handed out so far are below the counter. *)
Definition oids_below (g : Graph) : Prop :=
  (∀ k o, nodesData g !! k = Some o → oid o < next_oid g) ∧
  (∀ k o, edgesData g !! k = Some o → oid o < next_oid g).

(** ** Auxiliary definitions *)

(** No ["|"] occurs in the text. *)
Fixpoint pipe_free (s : string) : bool :=
  match s with
  | EmptyString => true
  | String a r => negb (Ascii.eqb a pipe) && pipe_free r
  end.

(** An identifier that is a number, or a string without ["|"]. *)
Definition plain (v : value) : bool :=
  match v with
  | VNum _ | VNaN => true
  | VStr s => pipe_free s
  | VOther _ => false
  end.

(** The identifier under which an item is added. *)
Definition item_id (it : item) : value :=
  match it with
  | Arr nid _ => nid
  | Bare id => id
  end.

(** One turn of the loop, and the loop, as functions on the container. *)
Definition unlink_step (id : value) (g : Graph) (nbr : value) : Graph :=
  {| adj := alter (λ s, s ∖ {[id]}) nbr (adj g);
     nodesData := nodesData g;
     edgesData := delete (_edgeKey id nbr) (edgesData g);
     next_oid := next_oid g |}.

Definition unlink (id : value) (l : list value) (g : Graph) : Graph :=
  foldl (unlink_step id) g l.

Definition adj_inv (g : Graph) : Prop := adj_consistent g ∧ edges_on_nodes g.

Definition Inv (g : Graph) : Prop :=
  adj_inv g ∧ same_keys g ∧ ids_valid g ∧ oids_below g.

Definition store_inv (g : Graph) : Prop := ids_valid g ∧ oids_below g.

(** An edge between two identifiers without ["|"] has an attribute object
    under its key. *)
Definition edges_recorded (g : Graph) : Prop :=
  ∀ u v, hasEdgeb g u v = true → plain u = true → plain v = true →
    is_Some (edgesData g !! _edgeKey u v).

(** ** Keys *)

Lemma sort2_swap a b : sort2 a b = sort2 b a.
Proof.
  unfold sort2. rewrite (String.compare_antisym b a).
  destruct (String.compare a b) eqn:E; simpl; try done.
  apply String.compare_eq_iff in E. by subst.
Qed.

Lemma _edgeKey_sym u v : _edgeKey u v = _edgeKey v u.
Proof. unfold _edgeKey. simpl. by rewrite sort2_swap. Qed.

(** ** The operations, run *)

Ltac run :=
  unfold addNode, addItem, removeNode, addEdge, hasEdge, edge, removeEdge,
    hasNode, node, neighbors, numberOfNodes, numberOfEdges, nodes,
    adj_add, adj_delete, adj_get, _checkValidId, spread,
    set_adj, set_nodesData, set_edgesData, bind, ret, throw, get in *;
  simpl in *.

Lemma hasEdge_run u v g : hasEdge u v g = (Ok (hasEdgeb g u v), g).
Proof.
  run. unfold hasEdgeb, nbrs.
  destruct (adj g !! u) as [s|] eqn:E; simpl.
  - by rewrite E.
  - done.
Qed.

Lemma hasEdgeb_true g u v :
  hasEdgeb g u v = true ↔ ∃ s, adj g !! u = Some s ∧ v ∈ s.
Proof.
  unfold hasEdgeb, nbrs. rewrite bool_decide_eq_true.
  destruct (adj g !! u) as [s|]; simpl; [naive_solver | set_solver].
Qed.

Lemma hasNodeb_true g u : hasNodeb g u = true ↔ is_Some (adj g !! u).
Proof. unfold hasNodeb. by rewrite bool_decide_eq_true. Qed.

Lemma hasNodeb_false g u : hasNodeb g u = false ↔ adj g !! u = None.
Proof.
  unfold hasNodeb. rewrite bool_decide_eq_false. by rewrite eq_None_not_Some.
Qed.

Lemma addNode_run id attr g :
  addNode id attr g =
    if bool_decide (typeof id = TOtherKind)
    then (Throw (InvalidIdentifier id), g)
    else if hasNodeb g id then (Throw (DuplicateNode id), g)
    else (Ok (),
          {| adj := <[id := ∅]> (adj g);
             nodesData := <[id := mkObj (next_oid g) attr]> (nodesData g);
             edgesData := edgesData g;
             next_oid := S (next_oid g) |}).
Proof.
  run. unfold hasNodeb.
  destruct id; simpl; try done; by case_bool_decide.
Qed.

Lemma addEdge_run u v attr g :
  addEdge u v attr g =
    if bool_decide (typeof u = TOtherKind)
    then (Throw (InvalidIdentifier u), g)
    else if bool_decide (typeof v = TOtherKind)
    then (Throw (InvalidIdentifier v), g)
    else if negb (hasNodeb g u) then (Throw (NodeNotFound u), g)
    else if negb (hasNodeb g v) then (Throw (NodeNotFound v), g)
    else
      let a := alter (λ s, {[u]} ∪ s) v (alter (λ s, {[v]} ∪ s) u (adj g)) in
      (Ok (),
       match edgesData g !! _edgeKey u v with
       | None =>
           {| adj := a; nodesData := nodesData g;
              edgesData :=
                <[_edgeKey u v := mkObj (next_oid g) attr]> (edgesData g);
              next_oid := S (next_oid g) |}
       | Some o =>
           {| adj := a; nodesData := nodesData g;
              edgesData := <[_edgeKey u v := assign o attr]> (edgesData g);
              next_oid := next_oid g |}
       end).
Proof.
  unfold hasNodeb. run.
  destruct (typeof u) eqn:Tu, (typeof v) eqn:Tv; simpl; try done.
  all: destruct (adj g !! u) as [su|] eqn:Eu; simpl; try done.
  all: destruct (adj g !! v) as [sv|] eqn:Ev; simpl; try done.
  all: rewrite ?Eu; simpl.
  all: rewrite lookup_alter; case_decide; subst; rewrite ?Eu, ?Ev; simpl.
  all: unfold with_adj; simpl.
  all: by destruct (edgesData g !! _edgeKey _ _).
Qed.

Lemma removeEdge_run u v g :
  removeEdge u v g =
    if negb (hasEdgeb g u v) then (Throw (EdgeNotFound u v), g)
    else match adj g !! v with
         | None =>
             (Throw TypeError, with_adj (alter (λ s, s ∖ {[v]}) u (adj g)) g)
         | Some _ =>
             (Ok (),
              {| adj := alter (λ s, s ∖ {[u]}) v
                          (alter (λ s, s ∖ {[v]}) u (adj g));
                 nodesData := nodesData g;
                 edgesData := delete (_edgeKey u v) (edgesData g);
                 next_oid := next_oid g |})
         end.
Proof.
  unfold removeEdge, bind at 1. rewrite hasEdge_run.
  destruct (hasEdgeb g u v) eqn:E; simpl; [|done].
  apply hasEdgeb_true in E as (s & Hs & Hv).
  run. rewrite Hs. simpl.
  rewrite lookup_alter. case_decide as Huv; subst.
  - by rewrite Hs.
  - by destruct (adj g !! v).
Qed.

(** ** The loop of [removeNode] *)

Lemma unlink_cons id x l g :
  unlink id (x :: l) g = unlink id l (unlink_step id g x).
Proof. done. Qed.

Lemma unlink_nodesData id l g : nodesData (unlink id l g) = nodesData g.
Proof.
  revert g. induction l as [|x l IH]; intros g; [done|].
  by rewrite unlink_cons, IH.
Qed.

Lemma unlink_next_oid id l g : next_oid (unlink id l g) = next_oid g.
Proof.
  revert g. induction l as [|x l IH]; intros g; [done|].
  by rewrite unlink_cons, IH.
Qed.

Lemma unlink_adj id l g x :
  adj (unlink id l g) !! x =
    if decide (x ∈ l) then (λ s, s ∖ {[id]}) <$> adj g !! x else adj g !! x.
Proof.
  revert g. induction l as [|y l IH]; intros g.
  - unfold unlink. simpl. first [done | case_decide; [set_solver | done]].
  - rewrite unlink_cons, IH. simpl.
    rewrite lookup_alter.
    destruct (decide (x ∈ l)) as [Hl|Hl];
      destruct (decide (x ∈ y :: l)) as [Hyl|Hyl];
      destruct (decide (y = x)) as [->|Hyx]; try set_solver.
    destruct (adj g !! x); simpl; [|done]. f_equal. set_solver.
Qed.

Lemma unlink_edgesData id l g k :
  edgesData (unlink id l g) !! k =
    if decide (k ∈ _edgeKey id <$> l) then None else edgesData g !! k.
Proof.
  revert g. induction l as [|y l IH]; intros g.
  - unfold unlink. simpl. first [done | case_decide; [set_solver | done]].
  - rewrite unlink_cons, IH, fmap_cons. cbn [edgesData unlink_step].
    rewrite lookup_delete.
    destruct (decide (k ∈ _edgeKey id <$> l)) as [Hl|Hl];
      destruct (decide (k ∈ _edgeKey id y :: (_edgeKey id <$> l))) as [Hyl|Hyl];
      destruct (decide (_edgeKey id y = k)) as [Hk|Hk]; try done;
      exfalso; set_solver.
Qed.

Lemma unlink_dom id l g : dom (adj (unlink id l g)) = dom (adj g).
Proof.
  apply set_eq. intros x. rewrite !elem_of_dom, unlink_adj.
  case_decide; [|done]. by rewrite fmap_is_Some.
Qed.

Lemma removeNode_loop_run id l :
  ∀ g s, adj g !! id = Some s → NoDup l →
    (∀ x, x ∈ l → x ∈ s) →
    (∀ x, x ∈ l → is_Some (adj g !! x)) →
    removeNode_loop id l g = (Ok (), unlink id l g).
Proof.
  induction l as [|nbr l IH]; intros g s Hid Hnd Hin Hdom; [done|].
  apply NoDup_cons in Hnd as [Hnbr Hnd].
  destruct (Hdom nbr) as [t Ht]; [set_solver|].
  simpl. run. rewrite Hid. simpl.
  rewrite bool_decide_eq_true_2 by set_solver.
  rewrite Ht. simpl.
  change (with_edgesData _ (with_adj _ g)) with (unlink_step id g nbr).
  eapply (IH _ (if decide (nbr = id) then s ∖ {[id]} else s)); [|done|..].
  - simpl. rewrite lookup_alter.
    case_decide; subst; by rewrite Hid.
  - intros x Hx. case_decide; subst; set_solver.
  - intros x Hx. simpl. rewrite lookup_alter.
    case_decide; subst; [by rewrite Ht|]. apply Hdom. set_solver.
Qed.

Lemma removeNode_run id g :
  adj_consistent g →
  removeNode id g =
    match adj g !! id with
    | None => (Throw (NodeNotFound id), g)
    | Some s =>
        (Ok (),
         {| adj := delete id (adj (unlink id (elements s) g));
            nodesData := delete id (nodesData g);
            edgesData := edgesData (unlink id (elements s) g);
            next_oid := next_oid g |})
    end.
Proof.
  intros Hc. unfold removeNode. run.
  destruct (adj g !! id) as [s|] eqn:Hid; simpl; [|done].
  rewrite Hid. simpl.
  rewrite (removeNode_loop_run id (elements s) g s); try done.
  - simpl. unfold with_adj, with_nodesData. simpl.
    by rewrite unlink_nodesData, unlink_next_oid.
  - apply NoDup_elements.
  - intros x. by rewrite elem_of_elements.
  - intros x Hx%elem_of_elements.
    destruct (Hc id s x) as (t & Ht & _); eauto.
Qed.

(** ** Every operation keeps the invariants *)

Lemma lookup_link (u v x : value) (a : gmap value (gset value)) :
  alter (λ s, {[u]} ∪ s) v (alter (λ s, {[v]} ∪ s) u a) !! x =
    (λ s, (if decide (x = v) then {[u]} else ∅) ∪
          (if decide (x = u) then {[v]} else ∅) ∪ s) <$> a !! x.
Proof.
  rewrite !lookup_alter.
  repeat case_decide; simplify_eq; destruct (a !! _); simpl; try done;
    f_equal; set_solver.
Qed.

Lemma lookup_cut (u v x : value) (a : gmap value (gset value)) :
  alter (λ s, s ∖ {[u]}) v (alter (λ s, s ∖ {[v]}) u a) !! x =
    (λ s, s ∖ (if decide (x = v) then {[u]} else ∅) ∖
              (if decide (x = u) then {[v]} else ∅)) <$> a !! x.
Proof.
  rewrite !lookup_alter.
  repeat case_decide; simplify_eq; destruct (a !! _); simpl; try done;
    f_equal; set_solver.
Qed.

Ltac open_inv :=
  unfold adj_inv, adj_consistent, edges_on_nodes, same_keys, ids_valid,
    oids_below; simpl.

(** *** Adjacency and edge records *)

Lemma adj_inv_empty : adj_inv empty_graph.
Proof. split; by open_inv. Qed.

Lemma adj_inv_addNode id attr g : adj_inv g → adj_inv (addNode id attr g).2.
Proof.
  intros [Hc He]. rewrite addNode_run.
  case_bool_decide as Hty; [done|].
  destruct (hasNodeb g id) eqn:Hn; [done|].
  apply hasNodeb_false in Hn.
  split; open_inv.
  - intros u s v Hu Hin. rewrite lookup_insert in Hu.
    case_decide; simplify_eq; try set_solver.
    destruct (Hc u s v Hu Hin) as (t & Ht & Hut).
    exists t. split; [|done]. rewrite lookup_insert_ne; [done|congruence].
  - intros k o Hko. destruct (He k o Hko) as (u & v & s & Hu & Hin & ->).
    exists u, v, s. split_and!; try done.
    rewrite lookup_insert_ne; [done|congruence].
Qed.

Lemma addNodesFrom_ind (P : Graph → Prop) :
  (∀ id attr g, P g → P (addNode id attr g).2) →
  ∀ nodeData g, P g → P (addNodesFrom nodeData g).2.
Proof.
  intros Hstep nodeData. induction nodeData as [|it rest IH]; intros g Hg.
  - done.
  - simpl. unfold bind.
    assert (P (addItem it g).2) as Hit.
    { destruct it; simpl; by apply Hstep. }
    destruct (addItem it g) as [[[]|e] g']; simpl in *; [by apply IH|done].
Qed.

Lemma adj_inv_addEdge u v attr g : adj_inv g → adj_inv (addEdge u v attr g).2.
Proof.
  intros [Hc He]. rewrite addEdge_run.
  case_bool_decide as Htu; [done|].
  case_bool_decide as Htv; [done|].
  destruct (hasNodeb g u) eqn:Hnu; simpl; [|done].
  destruct (hasNodeb g v) eqn:Hnv; simpl; [|done].
  apply hasNodeb_true in Hnu as [su Hsu], Hnv as [sv Hsv].
  set (a := alter _ v _).
  assert (adj_consistent (with_adj a g)) as Hc'.
  { intros x s y Hx Hy. simpl in *. subst a.
    rewrite lookup_link in Hx |- *.
    destruct (adj g !! x) as [sx|] eqn:Hsx; simplify_eq/=.
    assert ((x = v ∧ y = u) ∨ (x = u ∧ y = v) ∨ y ∈ sx) as Hcases.
    { repeat case_decide; set_solver. }
    destruct Hcases as [[-> ->]|[[-> ->]|Hy']].
    - rewrite Hsu. eexists; split; [done|].
      clear Hy. repeat case_decide; set_solver.
    - rewrite Hsv. eexists; split; [done|].
      clear Hy. repeat case_decide; set_solver.
    - destruct (Hc x sx y Hsx Hy') as (t & -> & Hxt).
      eexists; split; [done|]. set_solver. }
  assert (∀ k, is_Some (edgesData g !! k) ∨ k = _edgeKey u v →
            ∃ x y s, a !! x = Some s ∧ y ∈ s ∧ k = _edgeKey x y) as He'.
  { intros k [[o Hko]| ->].
    - destruct (He k o Hko) as (x & y & s & Hx & Hy & ->).
      exists x, y. subst a. rewrite lookup_link, Hx. simpl.
      eexists; split_and!; [done| |done]. set_solver.
    - exists u, v. subst a. rewrite lookup_link, Hsu. simpl.
      eexists; split_and!; [done| |done].
      repeat case_decide; set_solver. }
  destruct (edgesData g !! _edgeKey u v) as [o|] eqn:Hek;
    (split; open_inv; [done|]).
  - intros k o' Hko. rewrite lookup_insert in Hko.
    case_decide; simplify_eq; eapply He'; eauto.
  - intros k o' Hko. rewrite lookup_insert in Hko.
    case_decide; simplify_eq; eapply He'; eauto.
Qed.

Lemma adj_inv_removeEdge u v g : adj_inv g → adj_inv (removeEdge u v g).2.
Proof.
  intros [Hc He]. rewrite removeEdge_run.
  destruct (hasEdgeb g u v) eqn:Huv; simpl; [|done].
  apply hasEdgeb_true in Huv as (su & Hsu & Hvu).
  destruct (Hc u su v Hsu Hvu) as (sv & Hsv & Huv). rewrite Hsv.
  set (a := alter _ v _).
  split; open_inv.
  - intros x s y Hx Hy. subst a. rewrite lookup_cut in Hx |- *.
    destruct (adj g !! x) as [sx|] eqn:Hsx; simplify_eq/=.
    assert (y ∈ sx) as Hy' by set_solver.
    destruct (Hc x sx y Hsx Hy') as (t & -> & Hxt).
    eexists; split; [done|]. simpl.
    repeat case_decide; set_solver.
  - intros k o Hko. rewrite lookup_delete in Hko.
    case_decide as Hne; [done|].
    destruct (He k o Hko) as (x & y & s & Hx & Hy & ->).
    exists x, y. subst a. rewrite lookup_cut, Hx. simpl.
    eexists; split_and!; [done| |done].
    assert (¬ (x = v ∧ y = u)) by (intros [-> ->]; by rewrite _edgeKey_sym in Hne).
    assert (¬ (x = u ∧ y = v)) by (by intros [-> ->]).
    repeat case_decide; set_solver.
Qed.

(** What [removeNode] leaves of the adjacency sets of the other nodes. *)
Lemma removeNode_adj id g s :
  adj_consistent g → adj g !! id = Some s →
  let a' := delete id (adj (unlink id (elements s) g)) in
  (∀ x sx, x ≠ id → adj g !! x = Some sx →
     ∃ sx', a' !! x = Some sx' ∧ ∀ y, y ≠ id → y ∈ sx → y ∈ sx') ∧
  (∀ x sx', a' !! x = Some sx' →
     x ≠ id ∧ ∃ sx, adj g !! x = Some sx ∧ sx' ⊆ sx ∧ id ∉ sx').
Proof.
  intros Hc Hid a'. subst a'. split.
  - intros x sx Hx Hsx. rewrite lookup_delete_ne by done.
    rewrite unlink_adj, Hsx. case_decide; simpl.
    + eexists; split; [done|]. set_solver.
    + eexists; split; [done|]. done.
  - intros x sx' Hx. apply lookup_delete_Some in Hx as [Hne Hx].
    split; [done|]. rewrite unlink_adj in Hx.
    destruct (adj g !! x) as [sx|] eqn:Hsx.
    2: { by case_decide. }
    exists sx. split; [done|].
    case_decide as Hin; simplify_eq/=; [set_solver|].
    split; [done|]. intros Hidx.
    destruct (Hc x sx' id Hsx Hidx) as (t & Ht & Hxt).
    rewrite Hid in Ht. simplify_eq. by apply Hin, elem_of_elements.
Qed.

Lemma adj_inv_removeNode id g : adj_inv g → adj_inv (removeNode id g).2.
Proof.
  intros [Hc He]. rewrite removeNode_run by done.
  destruct (adj g !! id) as [s|] eqn:Hid; simpl; [|done].
  destruct (removeNode_adj id g s Hc Hid) as [Hkeep Hwas].
  split; open_inv.
  - intros x sx' y Hx Hy.
    destruct (Hwas x sx' Hx) as (Hne & sx & Hsx & Hsub & Hnid).
    assert (y ≠ id) as Hyne by (intros ->; done).
    destruct (Hc x sx y Hsx) as (t & Ht & Hxt); [set_solver|].
    destruct (Hkeep y t Hyne Ht) as (t' & Ht' & Hin).
    exists t'. split; [done|]. by apply Hin.
  - intros k o Hko. rewrite unlink_edgesData in Hko.
    case_decide as Hk'; [done|].
    destruct (He k o Hko) as (x & y & sx & Hx & Hy & ->).
    assert (x ≠ id) as Hxne.
    { intros ->. apply Hk'. rewrite Hid in Hx. simplify_eq.
      apply list_elem_of_fmap. exists y. by rewrite elem_of_elements. }
    assert (y ≠ id) as Hyne.
    { intros ->. apply Hk'.
      destruct (Hc x sx id Hx Hy) as (t & Ht & Hxt).
      rewrite Hid in Ht. simplify_eq.
      apply list_elem_of_fmap. exists x.
      by rewrite elem_of_elements, _edgeKey_sym. }
    destruct (Hkeep x sx Hxne Hx) as (sx' & Hsx' & Hin).
    exists x, y, sx'. split_and!; [done| |done]. by apply Hin.
Qed.

Lemma adj_inv_run_op o g : adj_inv g → adj_inv (run_op o g).2.
Proof.
  destruct o; simpl.
  - apply adj_inv_addNode.
  - apply (addNodesFrom_ind adj_inv). intros. by apply adj_inv_addNode.
  - apply adj_inv_removeNode.
  - apply adj_inv_addEdge.
  - apply adj_inv_removeEdge.
Qed.

(** *** The keys of the two node maps *)

(** The loop of [removeNode] neither adds nor removes a key of the adjacency
    map and leaves the node attributes alone, also when it throws. *)
Lemma removeNode_loop_frame id l g :
  dom (adj (removeNode_loop id l g).2) = dom (adj g) ∧
  nodesData (removeNode_loop id l g).2 = nodesData g.
Proof.
  revert g. induction l as [|nbr l IH]; intros g; [done|].
  simpl. run.
  case_bool_decide; [|apply IH].
  destruct (adj g !! nbr) as [t|] eqn:Hnbr; simpl; [|done].
  match goal with |- context [removeNode_loop id l ?g'] =>
    destruct (IH g') as [-> ->] end.
  simpl. by rewrite dom_alter_L.
Qed.

Lemma same_keys_addNode id attr g :
  same_keys g → same_keys (addNode id attr g).2.
Proof.
  intros Hk. rewrite addNode_run.
  case_bool_decide; [done|]. destruct (hasNodeb g id); [done|].
  open_inv. rewrite !dom_insert_L. by rewrite Hk.
Qed.

Lemma same_keys_addEdge u v attr g :
  same_keys g → same_keys (addEdge u v attr g).2.
Proof.
  intros Hk. rewrite addEdge_run.
  repeat (case_bool_decide; [done|]).
  destruct (hasNodeb g u), (hasNodeb g v); simpl; try done.
  destruct (edgesData g !! _edgeKey u v); open_inv;
    by rewrite !dom_alter_L.
Qed.

Lemma same_keys_removeEdge u v g :
  same_keys g → same_keys (removeEdge u v g).2.
Proof.
  intros Hk. rewrite removeEdge_run.
  destruct (hasEdgeb g u v); simpl; [|done].
  destruct (adj g !! v); open_inv; by rewrite !dom_alter_L.
Qed.

Lemma same_keys_removeNode id g :
  same_keys g → same_keys (removeNode id g).2.
Proof.
  intros Hk. unfold removeNode. run.
  destruct (adj g !! id) as [s|] eqn:Hid; simpl; [|done].
  rewrite Hid. simpl.
  destruct (removeNode_loop_frame id (elements s) g) as [Hd Hn].
  destruct (removeNode_loop id (elements s) g) as [[[]|e] g'];
    open_inv; simpl in *.
  - rewrite !dom_delete_L, Hd, Hn. by rewrite Hk.
  - by rewrite Hd, Hn.
Qed.

Lemma same_keys_run_op o g : same_keys g → same_keys (run_op o g).2.
Proof.
  destruct o; simpl.
  - apply same_keys_addNode.
  - apply (addNodesFrom_ind same_keys). intros. by apply same_keys_addNode.
  - apply same_keys_removeNode.
  - apply same_keys_addEdge.
  - apply same_keys_removeEdge.
Qed.

(** *** Identifier kinds and object identities *)

Ltac split_store := unfold store_inv, oids_below; split_and!; open_inv.

Lemma store_inv_addNode id attr g :
  store_inv g → store_inv (addNode id attr g).2.
Proof.
  intros (Hv & Ho1 & Ho2). rewrite addNode_run.
  case_bool_decide as Hty; [done|].
  destruct (hasNodeb g id) eqn:Hn; [done|].
  split_store.
  - intros u Hu. rewrite lookup_insert in Hu.
    case_decide; subst; [done|]. by apply Hv.
  - intros k o Hko. rewrite lookup_insert in Hko.
    case_decide; simplify_eq; simpl; [lia|]. apply Ho1 in Hko. lia.
  - intros k o Hko. apply Ho2 in Hko. lia.
Qed.

Lemma store_inv_addEdge u v attr g :
  store_inv g → store_inv (addEdge u v attr g).2.
Proof.
  intros (Hv & Ho1 & Ho2). rewrite addEdge_run.
  repeat (case_bool_decide; [done|]).
  destruct (hasNodeb g u), (hasNodeb g v); simpl; try done.
  assert (∀ x, is_Some (alter (λ s, {[u]} ∪ s) v
                          (alter (λ s, {[v]} ∪ s) u (adj g)) !! x) →
               typeof x ≠ TOtherKind) as Hv'.
  { intros x Hx. apply Hv. rewrite lookup_link in Hx.
    by apply fmap_is_Some in Hx. }
  destruct (edgesData g !! _edgeKey u v) as [o|] eqn:Hek;
    (split_store; [exact Hv'|..]).
  - exact Ho1.
  - intros k o' Hko. rewrite lookup_insert in Hko.
    case_decide; simplify_eq; simpl; [by apply Ho2 in Hek | by apply Ho2 in Hko].
  - intros k o' Hko. apply Ho1 in Hko. lia.
  - intros k o' Hko. rewrite lookup_insert in Hko.
    case_decide; simplify_eq; simpl; [lia | apply Ho2 in Hko; lia].
Qed.

Lemma store_inv_removeEdge u v g :
  store_inv g → store_inv (removeEdge u v g).2.
Proof.
  intros (Hv & Ho1 & Ho2). rewrite removeEdge_run.
  destruct (hasEdgeb g u v); simpl; [|done].
  destruct (adj g !! v); (split_store; [|exact Ho1|]).
  - intros x Hx. apply Hv. rewrite lookup_cut in Hx.
    by apply fmap_is_Some in Hx.
  - intros k o Hko. apply lookup_delete_Some in Hko as [_ Hko]. eauto.
  - intros x Hx. apply Hv. rewrite lookup_alter in Hx.
    case_decide; subst; [by apply fmap_is_Some in Hx | done].
  - exact Ho2.
Qed.

Lemma store_inv_removeNode id g :
  adj_consistent g → store_inv g → store_inv (removeNode id g).2.
Proof.
  intros Hc (Hv & Ho1 & Ho2). rewrite removeNode_run by done.
  destruct (adj g !! id) as [s|] eqn:Hid; simpl; [|done].
  destruct (removeNode_adj id g s Hc Hid) as [_ Hwas].
  split_store.
  - intros x [sx' Hx]. apply Hv.
    destruct (Hwas x sx' Hx) as (_ & sx & -> & _). done.
  - intros k o Hko. apply lookup_delete_Some in Hko as [_ Hko]. eauto.
  - intros k o Hko. rewrite unlink_edgesData in Hko.
    case_decide; [done|]. eauto.
Qed.

Lemma Inv_empty : Inv empty_graph.
Proof.
  split_and!; try apply adj_inv_empty; open_inv; try done.
  by intros u [? ?].
Qed.

Lemma Inv_addNode id attr g : Inv g → Inv (addNode id attr g).2.
Proof.
  intros (Ha & Hk & Hs).
  destruct (store_inv_addNode id attr g Hs).
  split_and!; auto using adj_inv_addNode, same_keys_addNode.
Qed.

Lemma Inv_run_op o g : Inv g → Inv (run_op o g).2.
Proof.
  destruct o as [id attr|nodeData|id|u v attr|u v]; simpl.
  - apply Inv_addNode.
  - apply (addNodesFrom_ind Inv). intros. by apply Inv_addNode.
  - intros (Ha & Hk & Hs).
    destruct (store_inv_removeNode id g (proj1 Ha) Hs).
    split_and!; auto using adj_inv_removeNode, same_keys_removeNode.
  - intros (Ha & Hk & Hs).
    destruct (store_inv_addEdge u v attr g Hs).
    split_and!; auto using adj_inv_addEdge, same_keys_addEdge.
  - intros (Ha & Hk & Hs).
    destruct (store_inv_removeEdge u v g Hs).
    split_and!; auto using adj_inv_removeEdge, same_keys_removeEdge.
Qed.

Lemma exec_app ops1 ops2 g : exec (ops1 ++ ops2) g = exec ops2 (exec ops1 g).
Proof. unfold exec. by rewrite foldl_app. Qed.

Lemma Inv_exec ops g : Inv g → Inv (exec ops g).
Proof.
  revert g. induction ops as [|o ops IH]; intros g Hg; [done|].
  simpl. apply IH. by apply Inv_run_op.
Qed.

Lemma reachable_Inv g : reachable g → Inv g.
Proof. intros [ops ->]. apply Inv_exec, Inv_empty. Qed.

Lemma reachable_empty : reachable empty_graph.
Proof. by exists []. Qed.

Lemma reachable_step o g : reachable g → reachable (run_op o g).2.
Proof.
  intros [ops ->]. exists (ops ++ [o])%list. by rewrite exec_app.
Qed.

(** ** Properties of the container *)

(** C9: for all arguments, of any kind, and in any state of the container,
    [hasEdge(u, v)] returns (it never throws) and leaves the container as it
    was; the answer is [false] when [u] is not a node, and otherwise it is
    [true] exactly when [v] is in the neighbour set of [u]. *)
Theorem C9_hasEdge_never_throws (g : Graph) (u v : value) :
  ∃ b, hasEdge u v g = (Ok b, g) ∧
       b = match adj g !! u with
           | None => false
           | Some s => bool_decide (v ∈ s)
           end.
Proof.
  exists (hasEdgeb g u v). split; [apply hasEdge_run|].
  unfold hasEdgeb, nbrs. destruct (adj g !! u); simpl; [done|].
  apply bool_decide_eq_false_2. set_solver.
Qed.

(** C10: in every reachable state the adjacency map and the node attribute
    map have the same keys, every operation keeps it so, and hence [node(id)]
    returns an attribute object whenever [hasNode(id)] is true, while no
    attribute object is stored for [id] whenever [hasNode(id)] is false. *)
Theorem C10_node_maps_share_keys :
  (∀ ops, same_keys (exec ops empty_graph)) ∧
  (∀ o g, same_keys g → same_keys (run_op o g).2) ∧
  (∀ g id, reachable g →
     if hasNodeb g id
     then ∃ o, node id g = (Ok (Some o), g)
     else nodesData g !! id = None).
Proof.
  split_and!.
  - intros ops. apply (reachable_Inv (exec ops empty_graph)). by exists ops.
  - apply same_keys_run_op.
  - intros g id (_ & Hk & _)%reachable_Inv.
    destruct (hasNodeb g id) eqn:Hn.
    + apply hasNodeb_true in Hn.
      assert (is_Some (nodesData g !! id)) as [o Ho].
      { apply elem_of_dom. rewrite <- Hk. by apply elem_of_dom. }
      exists o. run. by rewrite bool_decide_eq_true_2, Ho.
    + apply hasNodeb_false in Hn.
      apply not_elem_of_dom. rewrite <- Hk. by apply not_elem_of_dom.
Qed.

Lemma C10_node_maps_share_keys_witness :
  same_keys (run_op (OpAddNode (VNum 1) ∅) empty_graph).2 ∧
  (if hasNodeb (exec [OpAddNode (VStr "A") ∅] empty_graph) (VStr "A")
   then ∃ o, node (VStr "A") (exec [OpAddNode (VStr "A") ∅] empty_graph) =
               (Ok (Some o), exec [OpAddNode (VStr "A") ∅] empty_graph)
   else nodesData (exec [OpAddNode (VStr "A") ∅] empty_graph) !! VStr "A"
          = None).
Proof.
  split.
  - apply (proj1 (proj2 C10_node_maps_share_keys)).
    apply (proj1 C10_node_maps_share_keys []).
  - apply (proj2 (proj2 C10_node_maps_share_keys)).
    by exists [OpAddNode (VStr "A") ∅].
Defined.

(** C2: after any sequence of operations on the empty container, a neighbour
    of a node is itself a node and has that node among its own neighbours, and
    every edge attribute object is stored under the key of two nodes that are
    neighbours of each other; each of [addNode], [addNodesFrom], [removeNode],
    [addEdge] and [removeEdge] keeps this so. *)
Theorem C2_adjacency_invariant :
  (∀ ops, adj_consistent (exec ops empty_graph) ∧
          edges_on_nodes (exec ops empty_graph)) ∧
  (∀ o g, adj_consistent g ∧ edges_on_nodes g →
          adj_consistent (run_op o g).2 ∧ edges_on_nodes (run_op o g).2).
Proof.
  split.
  - intros ops. apply (reachable_Inv (exec ops empty_graph)). by exists ops.
  - intros o g. apply adj_inv_run_op.
Qed.

Lemma C2_adjacency_invariant_witness :
  adj_consistent (run_op (OpAddEdge (VNum 1) (VNum 1) ∅)
                    (exec [OpAddNode (VNum 1) ∅] empty_graph)).2 ∧
  edges_on_nodes (run_op (OpAddEdge (VNum 1) (VNum 1) ∅)
                    (exec [OpAddNode (VNum 1) ∅] empty_graph)).2.
Proof.
  apply (proj2 C2_adjacency_invariant).
  apply (proj1 C2_adjacency_invariant [OpAddNode (VNum 1) ∅]).
Defined.

Lemma edge_run u v g :
  edge u v g =
    if hasEdgeb g u v then (Ok (edgesData g !! _edgeKey u v), g)
    else (Throw (EdgeNotFound u v), g).
Proof.
  unfold edge, bind at 1. rewrite hasEdge_run.
  by destruct (hasEdgeb g u v).
Qed.

Lemma node_run id g :
  node id g =
    if hasNodeb g id then (Ok (nodesData g !! id), g)
    else (Throw (NodeNotFound id), g).
Proof. run. unfold hasNodeb. by case_bool_decide. Qed.

Lemma neighbors_run id g :
  neighbors id g =
    match adj g !! id with
    | Some s => (Ok (elements s), g)
    | None => (Throw (NodeNotFound id), g)
    end.
Proof. run. destruct (adj g !! id) eqn:E; simpl; [by rewrite E|done]. Qed.

Lemma hasEdgeb_sym g u v :
  adj_consistent g → hasEdgeb g u v = hasEdgeb g v u.
Proof.
  intros Hc.
  destruct (hasEdgeb g u v) eqn:E1, (hasEdgeb g v u) eqn:E2; try done.
  - apply hasEdgeb_true in E1 as (s & Hs & Hv).
    destruct (Hc _ _ _ Hs Hv) as (t & Ht & Hu).
    assert (hasEdgeb g v u = true) by (apply hasEdgeb_true; eauto).
    congruence.
  - apply hasEdgeb_true in E2 as (s & Hs & Hv).
    destruct (Hc _ _ _ Hs Hv) as (t & Ht & Hu).
    assert (hasEdgeb g u v = true) by (apply hasEdgeb_true; eauto).
    congruence.
Qed.

(** C5: a call of [addNode], [removeNode], [addEdge] or [removeEdge] that
    throws leaves the container exactly as it was, and so do the queries that
    can throw; [addEdge] throws for an identifier that is neither a number nor
    a string, else for a missing [u], else for a missing [v], and otherwise
    succeeds. *)
Theorem C5_failed_call_changes_nothing (g : Graph) (Hg : reachable g) :
  (∀ o e g', (∀ nodeData, o ≠ OpAddNodesFrom nodeData) →
     run_op o g = (Throw e, g') → g' = g) ∧
  (∀ id, (node id g).2 = g) ∧
  (∀ u v, (edge u v g).2 = g) ∧
  (∀ id, (neighbors id g).2 = g) ∧
  (∀ u v attr,
     addEdge u v attr g =
       if bool_decide (typeof u = TOtherKind)
       then (Throw (InvalidIdentifier u), g)
       else if bool_decide (typeof v = TOtherKind)
       then (Throw (InvalidIdentifier v), g)
       else if negb (hasNodeb g u) then (Throw (NodeNotFound u), g)
       else if negb (hasNodeb g v) then (Throw (NodeNotFound v), g)
       else (Ok (), (addEdge u v attr g).2)).
Proof.
  destruct (reachable_Inv g Hg) as ([Hc He] & _).
  split_and!.
  - intros [id attr|nodeData|id|u v attr|u v] e g' Hno; simpl.
    + rewrite addNode_run. repeat case_match; congruence.
    + by destruct (Hno nodeData).
    + rewrite removeNode_run by done. repeat case_match; congruence.
    + rewrite addEdge_run. repeat case_match; congruence.
    + rewrite removeEdge_run.
      destruct (hasEdgeb g u v) eqn:Huv; simpl; [|congruence].
      apply hasEdgeb_true in Huv as (s & Hs & Hv).
      destruct (Hc _ _ _ Hs Hv) as (t & -> & _). congruence.
  - intros id. rewrite node_run. by case_match.
  - intros u v. rewrite edge_run. by case_match.
  - intros id. rewrite neighbors_run. by case_match.
  - intros u v attr. rewrite !addEdge_run. by repeat case_match.
Qed.

Lemma C5_failed_call_changes_nothing_witness :
  (addEdge (VStr "X") (VStr "Z") ∅
     (exec [OpAddNode (VStr "X") ∅] empty_graph)).2 =
  exec [OpAddNode (VStr "X") ∅] empty_graph.
Proof.
  apply (proj1 (C5_failed_call_changes_nothing
                  (exec [OpAddNode (VStr "X") ∅] empty_graph)
                  (ex_intro _ [OpAddNode (VStr "X") ∅] eq_refl))
           (OpAddEdge (VStr "X") (VStr "Z") ∅) (NodeNotFound (VStr "Z"))).
  - intros nodeData. discriminate.
  - vm_compute. reflexivity.
Defined.

Lemma addEdge_ok g u v attr :
  typeof u ≠ TOtherKind → typeof v ≠ TOtherKind →
  hasNodeb g u = true → hasNodeb g v = true →
  ∃ g', addEdge u v attr g = (Ok (), g') ∧
    adj g' = alter (λ s, {[u]} ∪ s) v (alter (λ s, {[v]} ∪ s) u (adj g)) ∧
    nodesData g' = nodesData g ∧
    edgesData g' =
      <[_edgeKey u v :=
          match edgesData g !! _edgeKey u v with
          | None => mkObj (next_oid g) attr
          | Some o => assign o attr
          end]> (edgesData g).
Proof.
  intros Hu Hv Hnu Hnv. rewrite addEdge_run.
  rewrite !bool_decide_eq_false_2 by done. rewrite Hnu, Hnv. simpl.
  eexists; split; [done|]. by destruct (edgesData g !! _edgeKey u v).
Qed.

(** C3: when [u] and [v] are nodes, [addEdge(u, v, attrs)] succeeds, and
    afterwards [hasEdge(u, v)] and [hasEdge(v, u)] are true and [edge(u, v)]
    and [edge(v, u)] return one and the same attribute object; and in every
    reachable state where the edge exists, it exists in both directions and
    [edge(u, v)] and [edge(v, u)] return the same thing. *)
Theorem C3_edge_lookup_symmetric :
  (∀ g u v attr, reachable g → hasNodeb g u = true → hasNodeb g v = true →
     ∃ g' o, addEdge u v attr g = (Ok (), g') ∧
       hasEdge u v g' = (Ok true, g') ∧ hasEdge v u g' = (Ok true, g') ∧
       edge u v g' = (Ok (Some o), g') ∧ edge v u g' = (Ok (Some o), g')) ∧
  (∀ g u v, reachable g → hasEdge u v g = (Ok true, g) →
     ∃ r, hasEdge v u g = (Ok true, g) ∧
          edge u v g = (Ok r, g) ∧ edge v u g = (Ok r, g)).
Proof.
  split.
  - intros g u v attr Hg Hnu Hnv.
    destruct (reachable_Inv g Hg) as (_ & _ & Hval & _).
    destruct (addEdge_ok g u v attr) as (g' & Hrun & Ha & _ & He);
      [by apply Hval, hasNodeb_true..|done|done|].
    apply hasNodeb_true in Hnu as [su Hsu], Hnv as [sv Hsv].
    assert (hasEdgeb g' u v = true) as Huv.
    { apply hasEdgeb_true. rewrite Ha, lookup_link, Hsu. simpl.
      eexists; split; [done|]. repeat case_decide; set_solver. }
    assert (hasEdgeb g' v u = true) as Hvu.
    { apply hasEdgeb_true. rewrite Ha, lookup_link, Hsv. simpl.
      eexists; split; [done|]. repeat case_decide; set_solver. }
    eexists g', _. rewrite !hasEdge_run, !edge_run, Huv, Hvu.
    rewrite <- (_edgeKey_sym u v), He, lookup_insert_eq. done.
  - intros g u v Hg Huv. rewrite hasEdge_run in Huv.
    assert (hasEdgeb g u v = true) as Hb by congruence.
    destruct (reachable_Inv g Hg) as ([Hc _] & _).
    assert (hasEdgeb g v u = true) as Hb' by (by rewrite hasEdgeb_sym).
    exists (edgesData g !! _edgeKey u v).
    rewrite hasEdge_run, !edge_run, Hb, Hb', (_edgeKey_sym v u). done.
Qed.

Lemma C3_edge_lookup_symmetric_witness :
  (∃ g' o,
     addEdge (VNum 1) (VStr "A") {["w" := VNum 1]}
       (exec [OpAddNode (VNum 1) ∅; OpAddNode (VStr "A") ∅] empty_graph)
       = (Ok (), g') ∧
     hasEdge (VNum 1) (VStr "A") g' = (Ok true, g') ∧
     hasEdge (VStr "A") (VNum 1) g' = (Ok true, g') ∧
     edge (VNum 1) (VStr "A") g' = (Ok (Some o), g') ∧
     edge (VStr "A") (VNum 1) g' = (Ok (Some o), g')) ∧
  (∃ r,
     let g := exec [OpAddNode (VNum 1) ∅; OpAddNode (VStr "A") ∅;
                    OpAddEdge (VStr "A") (VNum 1) ∅] empty_graph in
     hasEdge (VNum 1) (VStr "A") g = (Ok true, g) ∧
     edge (VStr "A") (VNum 1) g = (Ok r, g) ∧
     edge (VNum 1) (VStr "A") g = (Ok r, g)).
Proof.
  split.
  - apply (proj1 C3_edge_lookup_symmetric).
    + by exists [OpAddNode (VNum 1) ∅; OpAddNode (VStr "A") ∅].
    + vm_compute. reflexivity.
    + vm_compute. reflexivity.
  - apply (proj2 C3_edge_lookup_symmetric).
    + by exists [OpAddNode (VNum 1) ∅; OpAddNode (VStr "A") ∅;
                 OpAddEdge (VStr "A") (VNum 1) ∅].
    + vm_compute. reflexivity.
Defined.

(** C4: in a reachable state, [removeNode(u)] on a node [u] succeeds and
    leaves no adjacency entry and no attribute object for [u]; for every [v]
    that was a neighbour of [u] (possibly [u] itself), afterwards
    [hasEdge(u, v)] and [hasEdge(v, u)] are false, [u] is not a neighbour of
    [v], and no attribute object is stored for the pair. *)
Theorem C4_removeNode_removes_incident_edges (g : Graph) (u : value) :
  reachable g → hasNodeb g u = true →
  ∃ g', removeNode u g = (Ok (), g') ∧
    adj g' !! u = None ∧ nodesData g' !! u = None ∧
    ∀ v, v ∈ nbrs g u →
      hasEdge u v g' = (Ok false, g') ∧ hasEdge v u g' = (Ok false, g') ∧
      (u ∉ nbrs g' v) ∧ edgesData g' !! _edgeKey u v = None.
Proof.
  intros Hg Hu. destruct (reachable_Inv g Hg) as ([Hc _] & _).
  apply hasNodeb_true in Hu as [s Hs].
  rewrite removeNode_run, Hs by done.
  destruct (removeNode_adj u g s Hc Hs) as [_ Hwas].
  eexists; split; [done|]. simpl.
  split_and!; try apply lookup_delete_eq.
  intros v Hv. unfold nbrs in Hv. rewrite Hs in Hv. simpl in Hv.
  assert (u ∉ nbrs {| adj := delete u (adj (unlink u (elements s) g));
                      nodesData := delete u (nodesData g);
                      edgesData := edgesData (unlink u (elements s) g);
                      next_oid := next_oid g |} v) as Hnot.
  { unfold nbrs. simpl.
    destruct (delete u (adj (unlink u (elements s) g)) !! v) as [sv'|] eqn:E;
      simpl; [|set_solver].
    by destruct (Hwas v sv' E) as (_ & sv & _ & _ & ?). }
  rewrite !hasEdge_run. unfold hasEdgeb at 1 2.
  rewrite (bool_decide_eq_false_2 (u ∈ _)) by done.
  rewrite bool_decide_eq_false_2.
  2: { unfold nbrs. simpl. rewrite lookup_delete_eq. set_solver. }
  split_and!; try done.
  rewrite unlink_edgesData. rewrite decide_True; [done|].
  apply list_elem_of_fmap. exists v. by rewrite elem_of_elements.
Qed.

Lemma C4_removeNode_removes_incident_edges_witness :
  ∃ g', removeNode (VNum 1)
          (exec [OpAddNode (VNum 1) ∅; OpAddNode (VStr "A") ∅;
                 OpAddEdge (VNum 1) (VStr "A") ∅;
                 OpAddEdge (VNum 1) (VNum 1) ∅] empty_graph) = (Ok (), g') ∧
    adj g' !! VNum 1 = None ∧ nodesData g' !! VNum 1 = None ∧
    ∀ v, v ∈ nbrs (exec [OpAddNode (VNum 1) ∅; OpAddNode (VStr "A") ∅;
                         OpAddEdge (VNum 1) (VStr "A") ∅;
                         OpAddEdge (VNum 1) (VNum 1) ∅] empty_graph) (VNum 1) →
      hasEdge (VNum 1) v g' = (Ok false, g') ∧
      hasEdge v (VNum 1) g' = (Ok false, g') ∧
      (VNum 1 ∉ nbrs g' v) ∧ edgesData g' !! _edgeKey (VNum 1) v = None.
Proof.
  apply C4_removeNode_removes_incident_edges.
  - by exists [OpAddNode (VNum 1) ∅; OpAddNode (VStr "A") ∅;
               OpAddEdge (VNum 1) (VStr "A") ∅;
               OpAddEdge (VNum 1) (VNum 1) ∅].
  - vm_compute. reflexivity.
Defined.

Lemma addNode_hasNodeb id attr g x :
  hasNodeb g x = true → hasNodeb (addNode id attr g).2 x = true.
Proof.
  intros Hx. rewrite addNode_run.
  case_bool_decide; [done|].
  destruct (hasNodeb g id) eqn:Hn; [done|].
  apply hasNodeb_true. apply hasNodeb_true in Hx. simpl.
  rewrite lookup_insert. by case_decide.
Qed.

Lemma addItem_ok it g g' :
  addItem it g = (Ok (), g') → hasNodeb g' (item_id it) = true.
Proof.
  assert (∀ id attr, addNode id attr g = (Ok (), g') →
            hasNodeb g' id = true) as Hadd.
  { intros id attr. rewrite addNode_run.
    repeat case_match; try congruence. intros [= <-].
    apply hasNodeb_true. simpl. rewrite lookup_insert_eq. eauto. }
  destruct it; simpl; apply Hadd.
Qed.

Lemma addItem_throw it g e g' : addItem it g = (Throw e, g') → g' = g.
Proof.
  destruct it; simpl; rewrite addNode_run; repeat case_match; congruence.
Qed.

Lemma addNodesFrom_hasNodeb nodeData :
  ∀ g x, hasNodeb g x = true → hasNodeb (addNodesFrom nodeData g).2 x = true.
Proof.
  intros g x Hx. revert g Hx.
  apply (addNodesFrom_ind (λ g, hasNodeb g x = true)).
  intros. by apply addNode_hasNodeb.
Qed.

Lemma addNodesFrom_app (l1 l2 : list item) g :
  addNodesFrom (l1 ++ l2) g =
    match addNodesFrom l1 g with
    | (Ok _, g1) => addNodesFrom l2 g1
    | (Throw e, g1) => (Throw e, g1)
    end.
Proof.
  revert g. induction l1 as [|it l1 IH]; intros g; [done|].
  simpl. unfold bind.
  destruct (addItem it g) as [[[]|e] g1]; [apply IH|done].
Qed.

(** C8: [addNodesFrom] applies [addNode] to the items in order, an array item
    giving the identifier and the attributes and any other item the
    identifier alone.  When the items before some item are added and that
    item fails, the call throws that item's error and leaves the container as
    the items before left it, with each of them a node; the items after it
    play no part. *)
Theorem C8_addNodesFrom_sequential :
  (∀ id g, addNodesFrom [Bare id] g =
           (let* _ := addNode id ∅ in ret ()) g) ∧
  (∀ id attr g, addNodesFrom [Arr id (Some attr)] g =
                (let* _ := addNode id attr in ret ()) g) ∧
  (∀ l1 l2 g, addNodesFrom (l1 ++ l2) g =
              (let* _ := addNodesFrom l1 in addNodesFrom l2) g) ∧
  (∀ pre it post g g1 e,
     addNodesFrom pre g = (Ok (), g1) →
     (addItem it g1).1 = Throw e →
     addNodesFrom (pre ++ it :: post) g = (Throw e, g1) ∧
     ∀ x, x ∈ pre → hasNodeb g1 (item_id x) = true).
Proof.
  split_and!; try done.
  - intros l1 l2 g. rewrite addNodesFrom_app. unfold bind.
    by destruct (addNodesFrom l1 g) as [[[]|e] g1].
  - intros pre it post g g1 e Hpre Hit. split.
    + rewrite addNodesFrom_app, Hpre. simpl. unfold bind.
      destruct (addItem it g1) as [[[]|e'] g2] eqn:E; simpl in *; [done|].
      apply addItem_throw in E. congruence.
    + clear Hit. revert g g1 Hpre.
      induction pre as [|y pre IH]; intros g g1 Hpre x Hx; [set_solver|].
      simpl in Hpre. unfold bind in Hpre.
      destruct (addItem y g) as [[[]|e'] g2] eqn:E; [|done].
      apply elem_of_cons in Hx as [->|Hx]; [|by eapply IH].
      apply addItem_ok in E.
      replace g1 with (addNodesFrom pre g2).2 by (by rewrite Hpre).
      by apply addNodesFrom_hasNodeb.
Qed.

Lemma C8_addNodesFrom_sequential_witness :
  addNodesFrom ([Bare (VNum 1); Arr (VStr "A") None] ++
                Bare (VNum 1) :: [Bare (VNum 2)]) empty_graph =
    (Throw (DuplicateNode (VNum 1)),
     exec [OpAddNode (VNum 1) ∅; OpAddNode (VStr "A") ∅] empty_graph) ∧
  ∀ x, x ∈ [Bare (VNum 1); Arr (VStr "A") None] →
    hasNodeb (exec [OpAddNode (VNum 1) ∅; OpAddNode (VStr "A") ∅] empty_graph)
      (item_id x) = true.
Proof.
  apply (proj2 (proj2 (proj2 C8_addNodesFrom_sequential))).
  - vm_compute. reflexivity.
  - vm_compute. reflexivity.
Defined.

Lemma addEdge_record g u v attr :
  reachable g → hasNodeb g u = true → hasNodeb g v = true →
  ∃ g' o, addEdge u v attr g = (Ok (), g') ∧
    hasNodeb g' u = true ∧ hasNodeb g' v = true ∧
    hasEdgeb g' u v = true ∧
    edgesData g' !! _edgeKey u v = Some o ∧
    match edgesData g !! _edgeKey u v with
    | None =>
        fields o = attr ∧
        (∀ k o', nodesData g !! k = Some o' → oid o' ≠ oid o) ∧
        (∀ k o', edgesData g !! k = Some o' → oid o' ≠ oid o)
    | Some o0 =>
        oid o = oid o0 ∧
        ∀ f, fields o !! f =
               match attr !! f with
               | Some x => Some x
               | None => fields o0 !! f
               end
    end.
Proof.
  intros Hg Hnu Hnv.
  destruct (reachable_Inv g Hg) as (_ & _ & Hval & Ho1 & Ho2).
  destruct (addEdge_ok g u v attr) as (g' & Hrun & Ha & _ & He);
    [by apply Hval, hasNodeb_true..|done|done|].
  apply hasNodeb_true in Hnu as [su Hsu], Hnv as [sv Hsv].
  exists g'. eexists. split; [done|]. split_and!.
  - apply hasNodeb_true. rewrite Ha, lookup_link, Hsu. eauto.
  - apply hasNodeb_true. rewrite Ha, lookup_link, Hsv. eauto.
  - apply hasEdgeb_true. rewrite Ha, lookup_link, Hsu. simpl.
    eexists; split; [done|]. repeat case_decide; set_solver.
  - rewrite He. apply lookup_insert_eq.
  - destruct (edgesData g !! _edgeKey u v) as [o0|] eqn:Hek; simpl.
    + split; [done|]. intros f. rewrite lookup_union.
      destruct (attr !! f), (fields o0 !! f); done.
    + split_and!; [done|..]; intros k o' Hk.
      * apply Ho1 in Hk. lia.
      * apply Ho2 in Hk. lia.
Qed.

(** C6: with the nodes ["a"], ["b|s:c"], ["a|s:b"] and ["c"] and the single
    edge between ["a"] and ["b|s:c"], carrying [{z: 9}], the pair of ["a|s:b"]
    and ["c"] is no edge and has no attribute object of its own, but its key
    is the key of the other pair.  So [addEdge("a|s:b", "c", {a: 1})] stores
    no copy of [{a: 1}]: it writes into the object of the other edge, and
    [edge("a|s:b", "c")] returns that object, with the fields [z] and [a];
    after [addEdge("a|s:b", "c", {b: 2})] it has the fields [z], [a] and [b],
    and so has what [edge("a", "b|s:c")] returns. *)
Theorem C6_addEdge_merges_into_other_pair :
  let g := exec [OpAddNode (VStr "a") ∅; OpAddNode (VStr "b|s:c") ∅;
                 OpAddNode (VStr "a|s:b") ∅; OpAddNode (VStr "c") ∅;
                 OpAddEdge (VStr "a") (VStr "b|s:c") {["z" := VNum 9]}]
             empty_graph in
  let g1 := (addEdge (VStr "a|s:b") (VStr "c") {["a" := VNum 1]} g).2 in
  let g2 := (addEdge (VStr "a|s:b") (VStr "c") {["b" := VNum 2]} g1).2 in
  (hasEdge (VStr "a|s:b") (VStr "c") g).1 = Ok false ∧
  (hasEdge (VStr "c") (VStr "a|s:b") g).1 = Ok false ∧
  (edge (VStr "a") (VStr "b|s:c") g).1 = Ok (Some (mkObj 4 {["z" := VNum 9]})) ∧
  (addEdge (VStr "a|s:b") (VStr "c") {["a" := VNum 1]} g).1 = Ok () ∧
  (edge (VStr "a|s:b") (VStr "c") g1).1 =
    Ok (Some (mkObj 4 {["a" := VNum 1; "z" := VNum 9]})) ∧
  (addEdge (VStr "a|s:b") (VStr "c") {["b" := VNum 2]} g1).1 = Ok () ∧
  (edge (VStr "a|s:b") (VStr "c") g2).1 =
    Ok (Some (mkObj 4 {["a" := VNum 1; "b" := VNum 2; "z" := VNum 9]})) ∧
  (edge (VStr "a") (VStr "b|s:c") g2).1 =
    Ok (Some (mkObj 4 {["a" := VNum 1; "b" := VNum 2; "z" := VNum 9]})) ∧
  (numberOfEdges g2).1 = Ok 1.
Proof. vm_compute. repeat split; reflexivity. Qed.

(** ** Typed identifiers and keys as text *)

Ltac norm_str :=
  repeat match goal with
         | |- context [EmptyString +:+ ?x] => change (EmptyString +:+ x) with x
         | H : context [EmptyString +:+ ?x] |- _ =>
             change (EmptyString +:+ x) with x in H
         end.

Lemma Number_numeral n : Number (numeral n) = VNum n.
Proof.
  unfold Number, numeral.
  assert (NilZero.int_of_string (NilZero.string_of_int (Z.to_int n))
          = Some (Z.to_int n)) as Hisi.
  { apply NilZero.isi; destruct n; simpl; try done;
      intros [= H]; by apply DecimalPos.Unsigned.to_uint_nonnil in H. }
  destruct (NilZero.string_of_int (Z.to_int n)) eqn:E; [done|].
  by rewrite Hisi, DecimalZ.of_to.
Qed.

Lemma numeral_inj n m : numeral n = numeral m → n = m.
Proof.
  intros H. apply (f_equal Number) in H.
  rewrite !Number_numeral in H. congruence.
Qed.

Lemma uint_pipe_free d : pipe_free (NilEmpty.string_of_uint d) = true.
Proof. induction d; simpl; auto. Qed.

Lemma numeral_pipe_free n : pipe_free (numeral n) = true.
Proof.
  unfold numeral, NilZero.string_of_int, NilZero.string_of_uint.
  destruct (Z.to_int n) as [d|d]; destruct d; simpl; auto using uint_pipe_free.
Qed.

Lemma _typedId_pipe_free v : plain v = true → pipe_free (_typedId v) = true.
Proof.
  destruct v; simpl; norm_str; try done. intros _. apply numeral_pipe_free.
Qed.

Lemma split_pipe_free s : pipe_free s = true → split pipe s = [s].
Proof.
  induction s as [|a s IH]; simpl; [done|].
  intros [Ha Hs]%andb_prop. apply negb_true_iff in Ha.
  by rewrite Ha, IH.
Qed.

Lemma split_first x y :
  pipe_free x = true → split pipe (x +:+ "|" +:+ y) = x :: split pipe y.
Proof.
  induction x as [|a x IH]; simpl; [done|].
  intros [Ha Hx]%andb_prop. apply negb_true_iff in Ha.
  by rewrite Ha, IH.
Qed.

Lemma append_inv_head (x y y' : string) : x +:+ y = x +:+ y' → y = y'.
Proof. induction x as [|a x IH]; simpl; [done|]. intros [=]. auto. Qed.

Lemma pipe_join_inj x y x' y' :
  pipe_free x = true → pipe_free x' = true →
  x +:+ "|" +:+ y = x' +:+ "|" +:+ y' → x = x' ∧ y = y'.
Proof.
  intros Hx Hx' Heq.
  assert (x = x') as <-.
  { apply (f_equal (split pipe)) in Heq.
    rewrite !split_first in Heq by done. congruence. }
  split; [done|]. apply append_inv_head in Heq. by simplify_eq/=.
Qed.

Lemma _typedId_inj u v :
  typeof u ≠ TOtherKind → typeof v ≠ TOtherKind →
  _typedId u = _typedId v → u = v.
Proof.
  destruct u as [n| |s|?], v as [m| |t|?]; simpl; intros Hu Hv [=];
    norm_str; try done.
  - f_equal. by apply numeral_inj.
  - match goal with H : numeral _ = _ |- _ =>
      apply (f_equal Number) in H; rewrite Number_numeral in H end.
    done.
  - match goal with H : _ = numeral _ |- _ =>
      apply (f_equal Number) in H; rewrite Number_numeral in H end.
    done.
  - by subst.
Qed.

(** The two pieces of a key are the typed endpoints, a number before a
    string. *)
Lemma _edgeKey_shape u v :
  typeof u ≠ TOtherKind → typeof v ≠ TOtherKind →
  ∃ a b, _edgeKey u v = _typedId a +:+ "|" +:+ _typedId b ∧
    ((a = u ∧ b = v) ∨ (a = v ∧ b = u)) ∧
    (typeof a = TString → typeof b = TString).
Proof.
  intros Hu Hv. unfold _edgeKey, sort2. simpl.
  destruct (String.compare (_typedId u) (_typedId v)) eqn:E; simpl.
  - exists u, v. split_and!; [done|by left|].
    destruct u, v; simpl in *; try done.
  - exists u, v. split_and!; [done|by left|].
    destruct u, v; simpl in *; try done.
  - exists v, u. split_and!; [done|by right|].
    destruct u, v; simpl in *; try done.
Qed.

Lemma addNode_ok g id attr :
  typeof id ≠ TOtherKind → hasNodeb g id = false →
  ∃ g', addNode id attr g = (Ok (), g') ∧
    adj g' = <[id := ∅]> (adj g) ∧
    nodesData g' = <[id := mkObj (next_oid g) attr]> (nodesData g) ∧
    edgesData g' = edgesData g.
Proof.
  intros Hty Hn. rewrite addNode_run, Hn.
  rewrite bool_decide_eq_false_2 by done. by eexists.
Qed.

Lemma edge_keys_meet n s w w' :
  typeof w ≠ TOtherKind → typeof w' ≠ TOtherKind →
  _edgeKey (VNum n) w = _edgeKey (VStr s) w' →
  w = VStr s ∧ w' = VNum n.
Proof.
  intros Hw Hw' Heq.
  destruct (_edgeKey_shape (VNum n) w) as (a & b & Hk & Hab & Hord);
    [done..|].
  destruct (_edgeKey_shape (VStr s) w') as (a' & b' & Hk' & Hab' & Hord');
    [done..|].
  rewrite Hk, Hk' in Heq.
  assert (typeof a = TNumber) as Ha.
  { destruct Hab as [[-> ->]|[-> ->]]; [done|].
    destruct w; simpl in *; try done. }
  assert (typeof b ≠ TOtherKind) as Hb.
  { by destruct Hab as [[-> ->]|[-> ->]]. }
  assert (typeof a' = TNumber) as Ha'.
  { destruct a, a'; simpl in *; try done;
      destruct Hab' as [[? ?]|[? ?]]; by simplify_eq/=. }
  assert (a' = w' ∧ b' = VStr s) as [-> ->].
  { destruct Hab' as [[-> ->]|[-> ->]]; done. }
  destruct (pipe_join_inj _ _ _ _
              (_typedId_pipe_free a ltac:(by destruct a))
              (_typedId_pipe_free w' ltac:(by destruct w')) Heq) as [H1 H2].
  apply _typedId_inj in H1; [|by rewrite Ha|done].
  apply _typedId_inj in H2; [|done..].
  subst. destruct Hab as [[? ?]|[? ?]]; by simplify_eq.
Qed.

(** C7: a number and a string never name the same thing, even when the
    string is the numeral of the number.  They are different map keys and
    have different typed forms; whichever of [n] and its numeral is a node,
    the other can still be added, and then both are nodes (from the empty
    container, [addNode(n)] and [addNode] of the numeral of [n] both succeed
    and leave two nodes); and the key of an edge at the number [n] equals the
    key of an edge at a string [s] only when both are the one edge between
    [n] and [s]. *)
Theorem C7_number_and_string_never_collide :
  (∀ n s, VNum n ≠ VStr s ∧ _typedId (VNum n) ≠ _typedId (VStr s)) ∧
  (∀ n a1 a2, ∃ g,
     (addNode (VNum n) a1;;; addNode (VStr (numeral n)) a2) empty_graph
       = (Ok (), g) ∧
     hasNode (VNum n) g = (Ok true, g) ∧
     hasNode (VStr (numeral n)) g = (Ok true, g) ∧
     numberOfNodes g = (Ok 2, g)) ∧
  (∀ g n attr, hasNodeb g (VNum n) = true →
     hasNodeb g (VStr (numeral n)) = false →
     ∃ g', addNode (VStr (numeral n)) attr g = (Ok (), g') ∧
       hasNodeb g' (VNum n) = true ∧ hasNodeb g' (VStr (numeral n)) = true ∧
       nodesData g' !! VNum n = nodesData g !! VNum n) ∧
  (∀ g n attr, hasNodeb g (VStr (numeral n)) = true →
     hasNodeb g (VNum n) = false →
     ∃ g', addNode (VNum n) attr g = (Ok (), g') ∧
       hasNodeb g' (VNum n) = true ∧ hasNodeb g' (VStr (numeral n)) = true ∧
       nodesData g' !! VStr (numeral n) = nodesData g !! VStr (numeral n)) ∧
  (∀ n s w w',
     typeof w ≠ TOtherKind → typeof w' ≠ TOtherKind →
     _edgeKey (VNum n) w = _edgeKey (VStr s) w' →
     w = VStr s ∧ w' = VNum n).
Proof.
  split_and!.
  - intros n s. split; [done|]. simpl. by intros [=].
  - intros n a1 a2.
    destruct (addNode_ok empty_graph (VNum n) a1) as (g1 & H1 & Ha1 & _);
      [done..|].
    destruct (addNode_ok g1 (VStr (numeral n)) a2) as (g2 & H2 & Ha2 & _);
      [done| |].
    { apply hasNodeb_false. rewrite Ha1. by simplify_map_eq. }
    exists g2. unfold bind. rewrite H1, H2. run. rewrite Ha2, Ha1.
    split_and!; try done.
    + by rewrite bool_decide_eq_true_2 by (by simplify_map_eq).
    + by rewrite bool_decide_eq_true_2 by (by simplify_map_eq).
    + rewrite map_size_insert_None by (by simplify_map_eq).
      by rewrite map_size_insert_None.
  - intros g n attr Hn Hs.
    destruct (addNode_ok g (VStr (numeral n)) attr) as (g' & H & Ha & Hd & _);
      [done..|].
    exists g'. split_and!; [done|..].
    + apply hasNodeb_true. apply hasNodeb_true in Hn.
      rewrite Ha. by rewrite lookup_insert_ne.
    + apply hasNodeb_true. rewrite Ha. by rewrite lookup_insert_eq.
    + rewrite Hd. by rewrite lookup_insert_ne.
  - intros g n attr Hs Hn.
    destruct (addNode_ok g (VNum n) attr) as (g' & H & Ha & Hd & _);
      [done..|].
    exists g'. split_and!; [done|..].
    + apply hasNodeb_true. rewrite Ha. by rewrite lookup_insert_eq.
    + apply hasNodeb_true. apply hasNodeb_true in Hs.
      rewrite Ha. by rewrite lookup_insert_ne.
    + rewrite Hd. by rewrite lookup_insert_ne.
  - apply edge_keys_meet.
Qed.

Lemma C7_number_and_string_never_collide_witness :
  (∃ g', addNode (VStr (numeral 1)) ∅
           (exec [OpAddNode (VNum 1) ∅] empty_graph) = (Ok (), g') ∧
     hasNodeb g' (VNum 1) = true ∧ hasNodeb g' (VStr (numeral 1)) = true ∧
     nodesData g' !! VNum 1 =
       nodesData (exec [OpAddNode (VNum 1) ∅] empty_graph) !! VNum 1) ∧
  (VStr "1" = VStr "1" ∧ VNum 1 = VNum 1).
Proof.
  split.
  - apply (proj1 (proj2 (proj2 C7_number_and_string_never_collide))).
    + vm_compute. reflexivity.
    + vm_compute. reflexivity.
  - apply (proj2 (proj2 (proj2 (proj2 C7_number_and_string_never_collide)))
             1%Z "1" (VStr "1") (VNum 1)).
    + simpl. discriminate.
    + simpl. discriminate.
    + vm_compute. reflexivity.
Defined.

(** The numeral-named string and the number carry separate edges to a third
    node: each lookup returns the object stored for its own edge. *)
Example C7_separate_edges :
  let g := exec [OpAddNode (VNum 1) ∅; OpAddNode (VStr "1") ∅;
                 OpAddNode (VNum 2) ∅;
                 OpAddEdge (VNum 1) (VNum 2) {["a" := VNum 10]};
                 OpAddEdge (VStr "1") (VNum 2) {["b" := VNum 20]}]
             empty_graph in
  (edge (VNum 1) (VNum 2) g).1 = Ok (Some (mkObj 3 {["a" := VNum 10]})) ∧
  (edge (VStr "1") (VNum 2) g).1 = Ok (Some (mkObj 4 {["b" := VNum 20]})) ∧
  (numberOfEdges g).1 = Ok 2.
Proof. vm_compute. done. Qed.

(** ** Reading the edges back *)

Lemma untyped__typedId v : typeof v ≠ TOtherKind → untyped (_typedId v) = v.
Proof.
  destruct v; unfold untyped; simpl; norm_str; try done.
  intros _. apply Number_numeral.
Qed.

Lemma split_two x y :
  ∃ p q rest, split pipe (x +:+ "|" +:+ y) = p :: q :: rest.
Proof.
  induction x as [|a x (p & q & rest & IH)]; simpl.
  - destruct y as [|b y]; simpl; [by eexists _, _, _|].
    destruct (Ascii.eqb b pipe); [by eexists _, _, _|].
    destruct (split pipe y); by eexists _, _, _.
  - rewrite IH. destruct (Ascii.eqb a pipe); by eexists _, _, _.
Qed.

Lemma edges_loop_length es g l :
  (edges_loop es g).1 = Ok l → length l = length es.
Proof.
  revert l. induction es as [|[k o] es IH]; intros l; simpl.
  - by intros [= <-].
  - unfold bind, edges_entry. simpl.
    destruct (split pipe k) as [|p [|q rest]]; try done. simpl.
    destruct (edges_loop es g) as [[l'|e] g'']; [|done].
    intros [= <-]. simpl. f_equal. by apply IH.
Qed.

(** In a reachable state [edges] returns, with as many entries as
    [numberOfEdges] counts. *)
Lemma edges_returns g :
  reachable g →
  ∃ l, edges g = (Ok l, g) ∧ numberOfEdges g = (Ok (length l), g).
Proof.
  intros Hg. destruct (reachable_Inv g Hg) as ([_ He] & _).
  assert (∀ es, (∀ k o, (k, o) ∈ es → edgesData g !! k = Some o) →
            ∃ l, edges_loop es g = (Ok l, g)) as Hloop.
  { induction es as [|[k o] es IH]; intros Hes; [by eexists|].
    destruct IH as [l Hl]; [intros; apply Hes; set_solver|].
    destruct (He k o) as (x & y & _ & _ & _ & ->); [apply Hes; set_solver|].
    unfold _edgeKey. simpl.
    destruct (split_two (sort2 (_typedId x) (_typedId y)).1
                        (sort2 (_typedId x) (_typedId y)).2)
      as (p & q & rest & Hsp).
    simpl. unfold bind, edges_entry. simpl. rewrite Hsp. simpl.
    rewrite Hl. by eexists. }
  destruct (Hloop (map_to_list (edgesData g))) as [l Hl].
  { intros k o. apply elem_of_map_to_list. }
  exists l. split; [done|]. run.
  apply (f_equal fst), edges_loop_length in Hl.
  by rewrite Hl, length_map_to_list.
Qed.

(** When no node is a string with a ["|"] in it, every entry of [edges] names
    the endpoints of a stored edge, and [edge] on them returns the very
    object of the entry. *)
Lemma edges_round_trip_plain g :
  reachable g →
  (∀ id, hasNodeb g id = true → plain id = true) →
  ∃ l, edges g = (Ok l, g) ∧
    ∀ u v o, (u, v, o) ∈ l → edge u v g = (Ok (Some o), g).
Proof.
  intros Hg Hplain.
  destruct (reachable_Inv g Hg) as ([Hc He] & _ & Hval & _).
  assert (∀ k o, edgesData g !! k = Some o →
            ∃ a b, edges_entry (k, o) g = (Ok (a, b, o), g) ∧
                   edge a b g = (Ok (Some o), g)) as Hentry.
  { intros k o Hko.
    destruct (He k o Hko) as (x & y & s & Hx & Hy & ->).
    destruct (Hc x s y Hx Hy) as (t & Ht & Hxt).
    assert (hasNodeb g x = true) as Hnx by (apply hasNodeb_true; eauto).
    assert (hasNodeb g y = true) as Hny by (apply hasNodeb_true; eauto).
    assert (typeof x ≠ TOtherKind) as Hvx by (by apply Hval, hasNodeb_true).
    assert (typeof y ≠ TOtherKind) as Hvy by (by apply Hval, hasNodeb_true).
    destruct (_edgeKey_shape x y Hvx Hvy) as (a & b & Hk & Hab & _).
    assert (plain a = true ∧ plain b = true ∧ typeof a ≠ TOtherKind ∧
            typeof b ≠ TOtherKind ∧ hasEdgeb g a b = true ∧
            _edgeKey a b = _edgeKey x y) as (Hpa & Hpb & Hva & Hvb & Hab' & Hkk).
    { destruct Hab as [[-> ->]|[-> ->]]; split_and!; auto.
      - apply hasEdgeb_true; eauto.
      - apply hasEdgeb_true; eauto.
      - apply _edgeKey_sym. }
    exists a, b. split.
    - unfold edges_entry. simpl. rewrite Hk.
      rewrite split_first by (by apply _typedId_pipe_free).
      rewrite split_pipe_free by (by apply _typedId_pipe_free).
      by rewrite !untyped__typedId.
    - by rewrite edge_run, Hab', Hkk, Hko. }
  assert (∀ es, (∀ k o, (k, o) ∈ es → edgesData g !! k = Some o) →
            ∃ l, edges_loop es g = (Ok l, g) ∧
              ∀ u v o, (u, v, o) ∈ l → edge u v g = (Ok (Some o), g))
    as Hloop.
  { induction es as [|[k o] es IH]; intros Hes.
    - exists []. split; [done|]. intros ? ? ? ?%elem_of_nil. done.
    - destruct IH as (l & Hl & Hall); [intros; apply Hes; set_solver|].
      destruct (Hentry k o) as (a & b & Hrun & Hedge);
        [apply Hes; set_solver|].
      exists ((a, b, o) :: l). split.
      + simpl. unfold bind. by rewrite Hrun, Hl.
      + intros u v o' [Heq|Hin]%elem_of_cons; [by simplify_eq|by apply Hall]. }
  apply Hloop. intros k o. apply elem_of_map_to_list.
Qed.

(** Without ["|"] in string identifiers, two pairs of identifiers with the
    same key are the same pair. *)
Lemma _edgeKey_inj_plain u v u' v' :
  plain u = true → plain v = true → plain u' = true → plain v' = true →
  _edgeKey u v = _edgeKey u' v' →
  (u = u' ∧ v = v') ∨ (u = v' ∧ v = u').
Proof.
  intros Hu Hv Hu' Hv' Heq.
  assert (∀ x, plain x = true → typeof x ≠ TOtherKind) as Hval.
  { by intros []. }
  destruct (_edgeKey_shape u v) as (a & b & Hk & Hab & _); [by apply Hval..|].
  destruct (_edgeKey_shape u' v') as (a' & b' & Hk' & Hab' & _);
    [by apply Hval..|].
  rewrite Hk, Hk' in Heq.
  assert (plain a = true ∧ plain b = true) as [Ha Hb].
  { by destruct Hab as [[-> ->]|[-> ->]]. }
  assert (plain a' = true ∧ plain b' = true) as [Ha' Hb'].
  { by destruct Hab' as [[-> ->]|[-> ->]]. }
  apply pipe_join_inj in Heq as [H1 H2]; [|by apply _typedId_pipe_free..].
  apply _typedId_inj in H1; [|by apply Hval..].
  apply _typedId_inj in H2; [|by apply Hval..].
  subst. destruct Hab as [[-> ->]|[-> ->]], Hab' as [[-> ->]|[-> ->]]; auto.
Qed.

(** With ["|"] in string identifiers, two different pairs can have the same
    key: the two edges below share one attribute object, and removing one of
    them leaves the other without any. *)
Example key_shared_by_two_edges :
  let g := exec [OpAddNode (VStr "a") ∅; OpAddNode (VStr "b|s:c") ∅;
                 OpAddNode (VStr "a|s:b") ∅; OpAddNode (VStr "c") ∅;
                 OpAddEdge (VStr "a") (VStr "b|s:c") {["z" := VNum 9]};
                 OpAddEdge (VStr "a|s:b") (VStr "c") {["a" := VNum 1]}]
             empty_graph in
  _edgeKey (VStr "a") (VStr "b|s:c") = _edgeKey (VStr "a|s:b") (VStr "c") ∧
  (numberOfEdges g).1 = Ok 1 ∧
  (edge (VStr "a") (VStr "b|s:c") g).1 =
    Ok (Some (mkObj 4 {["a" := VNum 1; "z" := VNum 9]})) ∧
  (edge (VStr "a|s:b") (VStr "c") g).1 =
    Ok (Some (mkObj 4 {["a" := VNum 1; "z" := VNum 9]})) ∧
  (edge (VStr "a|s:b") (VStr "c")
     (run_op (OpRemoveEdge (VStr "a") (VStr "b|s:c")) g).2).1 = Ok None.
Proof. vm_compute. done. Qed.

(** C1: with the nodes ["a|b"] and ["c"] and one edge between them,
    [numberOfEdges()] is 1 and [edges()] has one entry, but the entry names
    the endpoints ["a"] and [""], and [edge("a", "")] throws, while the
    object of the entry is the one [edge("a|b", "c")] returns. *)
Theorem C1_edges_splits_identifier_with_pipe :
  let g := exec [OpAddNode (VStr "a|b") ∅; OpAddNode (VStr "c") ∅;
                 OpAddEdge (VStr "a|b") (VStr "c") {["w" := VNum 1]}]
             empty_graph in
  let o := mkObj 2 {["w" := VNum 1]} in
  reachable g ∧
  numberOfEdges g = (Ok 1, g) ∧
  edges g = (Ok [(VStr "a", VStr "", o)], g) ∧
  edge (VStr "a") (VStr "") g = (Throw (EdgeNotFound (VStr "a") (VStr "")), g) ∧
  edge (VStr "a|b") (VStr "c") g = (Ok (Some o), g).
Proof.
  split; [by eexists|]. vm_compute. done.
Qed.

(** ** Further properties of the operations *)

Lemma hasNode_run id g : hasNode id g = (Ok (hasNodeb g id), g).
Proof. done. Qed.

Lemma numberOfNodes_run g : numberOfNodes g = (Ok (size (adj g)), g).
Proof. done. Qed.

Lemma hasNodeb_dom g g' :
  dom (adj g') = dom (adj g) → ∀ x, hasNodeb g' x = hasNodeb g x.
Proof.
  intros Hd x. unfold hasNodeb. apply bool_decide_ext.
  by rewrite <- !elem_of_dom, Hd.
Qed.

Lemma size_adj_dom g g' :
  dom (adj g') = dom (adj g) → size (adj g') = size (adj g).
Proof. intros Hd. by rewrite <- !size_dom, Hd. Qed.

(** X1: [addNode(id, attr)] with a number or string that is not yet a node
    succeeds: afterwards [hasNode(id)] is true, [node(id)] returns an object
    with the fields of [attr], [neighbors(id)] is empty, [numberOfNodes()] is
    one more than before, and the entries of all other nodes and all edge
    attribute objects are as they were. *)
Theorem X1_addNode_adds_one_node (g : Graph) (id : value)
    (attr : gmap string value) :
  typeof id ≠ TOtherKind → hasNode id g = (Ok false, g) →
  ∃ g' o n, addNode id attr g = (Ok (), g') ∧
    hasNode id g' = (Ok true, g') ∧
    node id g' = (Ok (Some o), g') ∧ fields o = attr ∧
    neighbors id g' = (Ok [], g') ∧
    numberOfNodes g = (Ok n, g) ∧ numberOfNodes g' = (Ok (S n), g') ∧
    (∀ x, x ≠ id →
       adj g' !! x = adj g !! x ∧ nodesData g' !! x = nodesData g !! x) ∧
    edgesData g' = edgesData g.
Proof.
  intros Hty Hn. rewrite hasNode_run in Hn.
  assert (hasNodeb g id = false) as Hb by congruence.
  destruct (addNode_ok g id attr Hty Hb) as (g' & Hrun & Ha & Hd & He).
  assert (hasNodeb g' id = true) as Hb'.
  { apply hasNodeb_true. rewrite Ha, lookup_insert_eq. eauto. }
  exists g', (mkObj (next_oid g) attr), (size (adj g)).
  rewrite hasNode_run, node_run, neighbors_run, !numberOfNodes_run, Hb'.
  rewrite Hd, Ha, !lookup_insert_eq, elements_empty.
  split_and!; try done.
  - rewrite map_size_insert_None; [done|]. by apply hasNodeb_false.
  - intros x Hx. by rewrite !lookup_insert_ne.
Qed.

Lemma X1_addNode_adds_one_node_witness :
  ∃ g' o n, addNode (VStr "A") {["color" := VStr "blue"]}
              (exec [OpAddNode (VNum 1) ∅] empty_graph) = (Ok (), g') ∧
    hasNode (VStr "A") g' = (Ok true, g') ∧
    node (VStr "A") g' = (Ok (Some o), g') ∧
    fields o = {["color" := VStr "blue"]} ∧
    neighbors (VStr "A") g' = (Ok [], g') ∧
    numberOfNodes (exec [OpAddNode (VNum 1) ∅] empty_graph)
      = (Ok n, exec [OpAddNode (VNum 1) ∅] empty_graph) ∧
    numberOfNodes g' = (Ok (S n), g') ∧
    (∀ x, x ≠ VStr "A" →
       adj g' !! x = adj (exec [OpAddNode (VNum 1) ∅] empty_graph) !! x ∧
       nodesData g' !! x =
         nodesData (exec [OpAddNode (VNum 1) ∅] empty_graph) !! x) ∧
    edgesData g' = edgesData (exec [OpAddNode (VNum 1) ∅] empty_graph).
Proof.
  apply X1_addNode_adds_one_node.
  - simpl. discriminate.
  - vm_compute. reflexivity.
Defined.

(** X2: [addNode] rejects an identifier that is neither a number nor a
    string before it looks at the nodes, and rejects an identifier that is
    already a node; either way nothing is changed, so after a successful
    [addNode(id, a)] a second [addNode(id, b)] throws and [node(id)] still
    returns the object of the first call. *)
Theorem X2_addNode_rejections (g : Graph) (id : value)
    (a b : gmap string value) :
  (typeof id = TOtherKind →
     addNode id a g = (Throw (InvalidIdentifier id), g)) ∧
  (typeof id ≠ TOtherKind → hasNode id g = (Ok true, g) →
     addNode id a g = (Throw (DuplicateNode id), g)) ∧
  (∀ g1, addNode id a g = (Ok (), g1) →
     addNode id b g1 = (Throw (DuplicateNode id), g1) ∧
     ∃ o, node id g1 = (Ok (Some o), g1) ∧ fields o = a).
Proof.
  split_and!.
  - intros Hty. rewrite addNode_run. by rewrite bool_decide_eq_true_2.
  - intros Hty Hn. rewrite hasNode_run in Hn.
    rewrite addNode_run, bool_decide_eq_false_2 by done.
    by replace (hasNodeb g id) with true by congruence.
  - intros g1. rewrite addNode_run.
    case_bool_decide as Hty; [done|].
    destruct (hasNodeb g id) eqn:Hn; [done|]. intros [= <-].
    rewrite addNode_run, node_run, bool_decide_eq_false_2 by done.
    assert (hasNodeb {| adj := <[id:=∅]> (adj g);
                        nodesData := <[id:=mkObj (next_oid g) a]> (nodesData g);
                        edgesData := edgesData g;
                        next_oid := S (next_oid g) |} id = true) as ->.
    { apply hasNodeb_true. simpl. rewrite lookup_insert_eq. eauto. }
    split; [done|]. simpl. rewrite lookup_insert_eq. by eexists.
Qed.

Lemma X2_addNode_rejections_witness :
  addNode (VOther "undefined") ∅ empty_graph
    = (Throw (InvalidIdentifier (VOther "undefined")), empty_graph) ∧
  addNode (VNum 1) {["x" := VNum 2]} (exec [OpAddNode (VNum 1) ∅] empty_graph)
    = (Throw (DuplicateNode (VNum 1)), exec [OpAddNode (VNum 1) ∅] empty_graph) ∧
  (addNode (VNum 1) ∅ (exec [OpAddNode (VNum 1) {["x" := VNum 2]}] empty_graph)
     = (Throw (DuplicateNode (VNum 1)),
        exec [OpAddNode (VNum 1) {["x" := VNum 2]}] empty_graph) ∧
   ∃ o, node (VNum 1) (exec [OpAddNode (VNum 1) {["x" := VNum 2]}] empty_graph)
          = (Ok (Some o), exec [OpAddNode (VNum 1) {["x" := VNum 2]}] empty_graph)
        ∧ fields o = {["x" := VNum 2]}).
Proof.
  split; [|split].
  - apply (proj1 (X2_addNode_rejections empty_graph (VOther "undefined") ∅ ∅)).
    reflexivity.
  - apply (proj1 (proj2 (X2_addNode_rejections
                           (exec [OpAddNode (VNum 1) ∅] empty_graph)
                           (VNum 1) {["x" := VNum 2]} ∅))).
    + simpl. discriminate.
    + vm_compute. reflexivity.
  - apply (proj2 (proj2 (X2_addNode_rejections empty_graph (VNum 1)
                           {["x" := VNum 2]} ∅))).
    vm_compute. reflexivity.
Defined.

Lemma link_swap (u v : value) (a : gmap value (gset value)) :
  alter (λ s, {[u]} ∪ s) v (alter (λ s, {[v]} ∪ s) u a) =
  alter (λ s, {[v]} ∪ s) u (alter (λ s, {[u]} ∪ s) v a).
Proof.
  apply map_eq. intros x. rewrite !lookup_link.
  destruct (a !! x); simpl; [|done]. f_equal. set_solver.
Qed.

Lemma cut_swap (u v : value) (a : gmap value (gset value)) :
  alter (λ s, s ∖ {[u]}) v (alter (λ s, s ∖ {[v]}) u a) =
  alter (λ s, s ∖ {[v]}) u (alter (λ s, s ∖ {[u]}) v a).
Proof.
  apply map_eq. intros x. rewrite !lookup_cut.
  destruct (a !! x); simpl; [|done]. f_equal. set_solver.
Qed.

Lemma link_twice (u v : value) (a : gmap value (gset value)) :
  let a1 := alter (λ s, {[u]} ∪ s) v (alter (λ s, {[v]} ∪ s) u a) in
  alter (λ s, {[u]} ∪ s) v (alter (λ s, {[v]} ∪ s) u a1) = a1.
Proof.
  simpl. apply map_eq. intros x. rewrite !lookup_link.
  destruct (a !! x); simpl; [|done]. f_equal. set_solver.
Qed.

Lemma addEdge_frame u v attr g :
  dom (adj (addEdge u v attr g).2) = dom (adj g) ∧
  nodesData (addEdge u v attr g).2 = nodesData g.
Proof.
  rewrite addEdge_run.
  repeat (case_bool_decide; [done|]).
  destruct (hasNodeb g u), (hasNodeb g v); simpl; try done.
  destruct (edgesData g !! _edgeKey u v); simpl; by rewrite !dom_alter_L.
Qed.

(** X3: [addEdge] never creates, removes or changes a node, whether it
    succeeds or throws: [hasNode], [node], [nodes] and [numberOfNodes] answer
    after the call as they did before it. *)
Theorem X3_addEdge_never_creates_nodes (g : Graph) (u v : value)
    (attr : gmap string value) :
  (∀ x, (hasNode x (addEdge u v attr g).2).1 = (hasNode x g).1) ∧
  (∀ x, (node x (addEdge u v attr g).2).1 = (node x g).1) ∧
  (nodes (addEdge u v attr g).2).1 = (nodes g).1 ∧
  (numberOfNodes (addEdge u v attr g).2).1 = (numberOfNodes g).1.
Proof.
  destruct (addEdge_frame u v attr g) as [Hd Hn].
  split_and!.
  - intros x. rewrite !hasNode_run. simpl. by rewrite (hasNodeb_dom _ _ Hd).
  - intros x. rewrite !node_run, (hasNodeb_dom _ _ Hd), Hn.
    by destruct (hasNodeb g x).
  - unfold nodes, bind, get, ret. simpl. by rewrite Hd.
  - rewrite !numberOfNodes_run. simpl. by rewrite (size_adj_dom _ _ Hd).
Qed.

(** X4: the order of the two endpoints does not matter to [addEdge]:
    [addEdge(u, v, attr)] and [addEdge(v, u, attr)] succeed on the same
    containers and leave the container in the same state. *)
Theorem X4_addEdge_either_direction (g : Graph) (u v : value)
    (attr : gmap string value) :
  (addEdge u v attr g).2 = (addEdge v u attr g).2 ∧
  ((addEdge u v attr g).1 = Ok () ↔ (addEdge v u attr g).1 = Ok ()).
Proof.
  rewrite !addEdge_run, (_edgeKey_sym v u), (link_swap v u).
  repeat case_bool_decide; simpl;
    destruct (hasNodeb g u), (hasNodeb g v); simpl; try done.
Qed.

(** X5: [addEdge] is idempotent: repeating a successful
    [addEdge(u, v, attr)] succeeds again and changes nothing. *)
Theorem X5_addEdge_idempotent (g g1 : Graph) (u v : value)
    (attr : gmap string value) :
  addEdge u v attr g = (Ok (), g1) → addEdge u v attr g1 = (Ok (), g1).
Proof.
  intros Hrun.
  destruct (addEdge_frame u v attr g) as [Hd _].
  rewrite Hrun in Hd. simpl in Hd.
  rewrite addEdge_run in Hrun. rewrite addEdge_run.
  rewrite !(hasNodeb_dom _ _ Hd).
  repeat (case_bool_decide; [done|]).
  destruct (hasNodeb g u), (hasNodeb g v); simpl in *; try done.
  injection Hrun as <-.
  destruct (edgesData g !! _edgeKey u v) as [o|] eqn:Hek; simpl;
    rewrite lookup_insert_eq, link_twice, insert_insert_eq;
    unfold assign; simpl; do 3 f_equal.
  - by rewrite (assoc_L (∪)), (idemp_L (∪)).
  - by rewrite (idemp_L (∪)).
Qed.

Lemma X5_addEdge_idempotent_witness :
  addEdge (VNum 1) (VNum 2) {["w" := VNum 5]}
    (exec [OpAddNode (VNum 1) ∅; OpAddNode (VNum 2) ∅;
           OpAddEdge (VNum 1) (VNum 2) {["w" := VNum 5]}] empty_graph)
  = (Ok (),
     exec [OpAddNode (VNum 1) ∅; OpAddNode (VNum 2) ∅;
           OpAddEdge (VNum 1) (VNum 2) {["w" := VNum 5]}] empty_graph).
Proof.
  apply (X5_addEdge_idempotent
           (exec [OpAddNode (VNum 1) ∅; OpAddNode (VNum 2) ∅] empty_graph)).
  vm_compute. reflexivity.
Defined.

(** *** Keys of pairs without ["|"] *)

Lemma split_nonempty s : ∃ h t, split pipe s = h :: t.
Proof.
  destruct s as [|a s]; simpl; [by eexists _, _|].
  destruct (Ascii.eqb a pipe); [by eexists _, _|].
  destruct (split pipe s); by eexists _, _.
Qed.

Lemma split_join x y :
  split pipe (x +:+ "|" +:+ y) = (split pipe x ++ split pipe y)%list.
Proof.
  induction x as [|a x IH]; simpl; [done|].
  rewrite IH. destruct (Ascii.eqb a pipe); [done|].
  by destruct (split_nonempty x) as (h & t & ->).
Qed.

Lemma split_single s t : split pipe s = [t] → pipe_free s = true.
Proof.
  revert t. induction s as [|a s IH]; intros t; simpl; [done|].
  destruct (Ascii.eqb a pipe) eqn:Ha; simpl.
  - destruct (split_nonempty s) as (h & t' & ->). done.
  - destruct (split_nonempty s) as (h & t' & Hs). rewrite Hs in IH |- *.
    intros [= _ ->]. by apply (IH h).
Qed.

Lemma plain_valid x : plain x = true → typeof x ≠ TOtherKind.
Proof. by destruct x. Qed.

(** The key of a pair without ["|"] is the key of no other pair. *)
Lemma _edgeKey_plain_unique u v x y :
  plain u = true → plain v = true →
  typeof x ≠ TOtherKind → typeof y ≠ TOtherKind →
  _edgeKey u v = _edgeKey x y →
  (u = x ∧ v = y) ∨ (u = y ∧ v = x).
Proof.
  intros Hu Hv Hx Hy Heq.
  destruct (_edgeKey_shape u v) as (a & b & Hk & Hab & _);
    [by apply plain_valid..|].
  destruct (_edgeKey_shape x y Hx Hy) as (a' & b' & Hk' & Hab' & _).
  rewrite Hk, Hk' in Heq.
  assert (plain a = true ∧ plain b = true) as [Ha Hb].
  { by destruct Hab as [[-> ->]|[-> ->]]. }
  assert (typeof a' ≠ TOtherKind ∧ typeof b' ≠ TOtherKind) as [Ha' Hb'].
  { by destruct Hab' as [[-> ->]|[-> ->]]. }
  assert (pipe_free (_typedId a') = true) as Hpa'.
  { pose proof (f_equal (split pipe) Heq) as Hsp.
    rewrite split_first, split_pipe_free, split_join in Hsp
      by (by apply _typedId_pipe_free).
    destruct (split_nonempty (_typedId a')) as (h & t & Hh).
    destruct (split_nonempty (_typedId b')) as (h' & t' & Hh').
    rewrite Hh, Hh' in Hsp. destruct t; [|by destruct t].
    by apply (split_single _ h). }
  apply pipe_join_inj in Heq as [H1 H2];
    [|by apply _typedId_pipe_free|done].
  apply _typedId_inj in H1; [|by apply plain_valid|done].
  apply _typedId_inj in H2; [|by apply plain_valid|done].
  subst. destruct Hab as [[-> ->]|[-> ->]], Hab' as [[-> ->]|[-> ->]]; auto.
Qed.

(** *** Which edges an operation leaves *)

Lemma hasEdgeb_link g g1 u v x y :
  adj g1 = alter (λ s, {[u]} ∪ s) v (alter (λ s, {[v]} ∪ s) u (adj g)) →
  hasNodeb g u = true → hasNodeb g v = true →
  hasEdgeb g1 x y = true ↔
    hasEdgeb g x y = true ∨ (x = u ∧ y = v) ∨ (x = v ∧ y = u).
Proof.
  intros Ha [su Hsu]%hasNodeb_true [sv Hsv]%hasNodeb_true.
  rewrite !hasEdgeb_true, Ha. setoid_rewrite lookup_link. split.
  - intros (s & Hs & Hy).
    destruct (adj g !! x) as [sx|] eqn:Hsx; simplify_eq/=.
    repeat case_decide; set_solver.
  - intros [(s & Hs & Hy)|[[-> ->]|[-> ->]]].
    + rewrite Hs. simpl. eexists; split; [done|]. set_solver.
    + rewrite Hsu. simpl. eexists; split; [done|].
      repeat case_decide; set_solver.
    + rewrite Hsv. simpl. eexists; split; [done|].
      repeat case_decide; set_solver.
Qed.

Lemma hasEdgeb_cut g g1 u v x y :
  adj g1 = alter (λ s, s ∖ {[u]}) v (alter (λ s, s ∖ {[v]}) u (adj g)) →
  hasEdgeb g1 x y = true ↔
    hasEdgeb g x y = true ∧ ¬ (x = u ∧ y = v) ∧ ¬ (x = v ∧ y = u).
Proof.
  intros Ha. rewrite !hasEdgeb_true, Ha. setoid_rewrite lookup_cut. split.
  - intros (s & Hs & Hy).
    destruct (adj g !! x) as [sx|] eqn:Hsx; simplify_eq/=.
    split_and!; [exists sx; set_solver|..]; intros [-> ->];
      repeat case_decide; set_solver.
  - intros ((s & Hs & Hy) & H1 & H2). rewrite Hs. simpl.
    eexists; split; [done|]. repeat case_decide; set_solver.
Qed.

Lemma hasEdgeb_removeNode g g1 u s x y :
  adj_consistent g → adj g !! u = Some s →
  adj g1 = delete u (adj (unlink u (elements s) g)) →
  hasEdgeb g1 x y = true ↔ hasEdgeb g x y = true ∧ x ≠ u ∧ y ≠ u.
Proof.
  intros Hc Hu Ha.
  destruct (removeNode_adj u g s Hc Hu) as [Hkeep Hwas]. simpl in *.
  rewrite !hasEdgeb_true, Ha. split.
  - intros (sx' & Hx & Hy).
    destruct (Hwas x sx' Hx) as (Hne & sx & Hsx & Hsub & Hnu).
    split_and!; [exists sx; set_solver|done|]. by intros ->.
  - intros ((sx & Hsx & Hy) & Hxu & Hyu).
    destruct (Hkeep x sx Hxu Hsx) as (sx' & Hsx' & Hin). eauto.
Qed.

Lemma removeEdge_ok g u v :
  adj_consistent g → hasEdgeb g u v = true →
  ∃ g', removeEdge u v g = (Ok (), g') ∧
    adj g' = alter (λ s, s ∖ {[u]}) v (alter (λ s, s ∖ {[v]}) u (adj g)) ∧
    nodesData g' = nodesData g ∧
    edgesData g' = delete (_edgeKey u v) (edgesData g) ∧
    next_oid g' = next_oid g.
Proof.
  intros Hc Huv. rewrite removeEdge_run, Huv. simpl.
  apply hasEdgeb_true in Huv as (s & Hs & Hv).
  destruct (Hc _ _ _ Hs Hv) as (t & -> & _). by eexists.
Qed.

Lemma removeNode_ok g u :
  adj_consistent g → hasNodeb g u = true →
  ∃ g' s, removeNode u g = (Ok (), g') ∧ adj g !! u = Some s ∧
    adj g' = delete u (adj (unlink u (elements s) g)) ∧
    nodesData g' = delete u (nodesData g) ∧
    edgesData g' = edgesData (unlink u (elements s) g) ∧
    next_oid g' = next_oid g.
Proof.
  intros Hc [s Hs]%hasNodeb_true. rewrite removeNode_run, Hs by done.
  by eexists _, _.
Qed.

Lemma edges_recorded_addNode id attr g :
  edges_recorded g → edges_recorded (addNode id attr g).2.
Proof.
  intros Hr. rewrite addNode_run.
  case_bool_decide; [done|]. destruct (hasNodeb g id) eqn:Hn; [done|].
  intros x y Hxy Hx Hy. simpl. apply Hr; [|done..].
  apply hasEdgeb_true in Hxy as (s & Hs & Hin). simpl in Hs.
  rewrite lookup_insert in Hs. case_decide; simplify_eq; try set_solver.
  apply hasEdgeb_true. eauto.
Qed.

Lemma edges_recorded_run_op o g :
  Inv g → edges_recorded g → edges_recorded (run_op o g).2.
Proof.
  destruct o as [id attr|nodeData|id|u v attr|u v]; simpl.
  - intros _. apply edges_recorded_addNode.
  - intros _. apply (addNodesFrom_ind edges_recorded).
    intros. by apply edges_recorded_addNode.
  - intros ([Hc He] & _ & Hval & _) Hr.
    destruct (hasNodeb g id) eqn:Hn.
    2: { apply hasNodeb_false in Hn. by rewrite removeNode_run, Hn. }
    destruct (removeNode_ok g id Hc Hn) as (g' & s & -> & Hs & Ha & _ & Hed & _).
    intros x y Hxy Hx Hy. simpl in *.
    apply (hasEdgeb_removeNode g g' id s x y Hc Hs Ha) in Hxy
      as (Hxy & Hxi & Hyi).
    rewrite Hed, unlink_edgesData. case_decide as Hk; [|by apply Hr].
    apply list_elem_of_fmap in Hk as (nbr & Hk & Hnbr%elem_of_elements).
    destruct (Hc id s nbr Hs Hnbr) as (t & Ht & _).
    apply _edgeKey_plain_unique in Hk; [|done|done|..].
    + destruct Hk as [[? ?]|[? ?]]; by subst.
    + apply Hval. eauto.
    + apply Hval. eauto.
  - intros ([Hc He] & _ & Hval & _) Hr.
    rewrite addEdge_run.
    case_bool_decide; [done|]. case_bool_decide; [done|].
    destruct (hasNodeb g u) eqn:Hnu; simpl; [|done].
    destruct (hasNodeb g v) eqn:Hnv; simpl; [|done].
    intros x y Hxy Hx Hy.
    assert (is_Some (edgesData g !! _edgeKey x y) ∨
            _edgeKey u v = _edgeKey x y) as Hcase.
    { eapply (hasEdgeb_link g _ u v x y) in Hxy; [| |done..].
      - destruct Hxy as [Hxy|[[-> ->]|[-> ->]]]; [left; by apply Hr|by right|].
        right. apply _edgeKey_sym.
      - by destruct (edgesData g !! _edgeKey u v). }
    destruct (edgesData g !! _edgeKey u v); simpl;
      rewrite lookup_insert; case_decide; try done; by destruct Hcase.
  - intros ([Hc He] & _ & Hval & _) Hr.
    destruct (hasEdgeb g u v) eqn:Huv.
    2: { by rewrite removeEdge_run, Huv. }
    destruct (removeEdge_ok g u v Hc Huv) as (g' & -> & Ha & _ & Hed & _).
    intros x y Hxy Hx Hy. simpl in *.
    apply (hasEdgeb_cut g g' u v x y Ha) in Hxy as (Hxy & H1 & H2).
    rewrite Hed, lookup_delete_ne; [by apply Hr|].
    intros Hk. symmetry in Hk.
    apply hasEdgeb_true in Huv as (su & Hsu & Hvu).
    destruct (Hc _ _ _ Hsu Hvu) as (sv & Hsv & _).
    apply _edgeKey_plain_unique in Hk; [|done|done|..].
    + destruct Hk as [[? ?]|[? ?]]; tauto.
    + apply Hval. eauto.
    + apply Hval. eauto.
Qed.

Lemma reachable_recorded g : reachable g → edges_recorded g.
Proof.
  intros [ops ->].
  assert (∀ g, Inv g → edges_recorded g →
            Inv (exec ops g) ∧ edges_recorded (exec ops g)) as Hexec.
  { induction ops as [|o ops IH]; intros g HI Hr; [done|].
    simpl. apply IH; [by apply Inv_run_op|by apply edges_recorded_run_op]. }
  apply Hexec; [apply Inv_empty|].
  intros u v Huv. apply hasEdgeb_true in Huv as (s & Hs & _). done.
Qed.

(** In a reachable state, a pair without ["|"] that is no edge has no
    attribute object under its key. *)
Lemma no_edge_no_record g u v :
  reachable g → plain u = true → plain v = true →
  hasEdgeb g u v = false → edgesData g !! _edgeKey u v = None.
Proof.
  intros Hg Hu Hv Huv.
  destruct (reachable_Inv g Hg) as ([Hc He] & _ & Hval & _).
  destruct (edgesData g !! _edgeKey u v) as [o|] eqn:Hk; [|done].
  destruct (He _ _ Hk) as (x & y & s & Hx & Hy & Heq).
  destruct (Hc _ _ _ Hx Hy) as (t & Ht & Hxt).
  apply _edgeKey_plain_unique in Heq; [|done|done|apply Hval; eauto..].
  assert (hasEdgeb g u v = true); [|congruence].
  apply hasEdgeb_true. destruct Heq as [[-> ->]|[-> ->]]; eauto.
Qed.

(** X6: in a reachable state, [removeEdge(u, v)] on an existing edge
    succeeds and removes that edge alone: afterwards [hasEdge(u, v)] and
    [hasEdge(v, u)] are false and the attribute object under the key of the
    pair is gone, while [hasEdge] is unchanged on every other ordered pair,
    the attribute objects under all other keys stay, and the nodes and their
    attribute objects are untouched. *)
Theorem X6_removeEdge_removes_only_that_edge (g : Graph) (u v : value) :
  reachable g → hasEdge u v g = (Ok true, g) →
  ∃ g', removeEdge u v g = (Ok (), g') ∧
    hasEdge u v g' = (Ok false, g') ∧ hasEdge v u g' = (Ok false, g') ∧
    edgesData g' !! _edgeKey u v = None ∧
    (∀ x y, ¬ (x = u ∧ y = v) → ¬ (x = v ∧ y = u) →
       (hasEdge x y g').1 = (hasEdge x y g).1) ∧
    (∀ k, k ≠ _edgeKey u v → edgesData g' !! k = edgesData g !! k) ∧
    (∀ x, (hasNode x g').1 = (hasNode x g).1 ∧ (node x g').1 = (node x g).1).
Proof.
  intros Hg Huv. rewrite hasEdge_run in Huv.
  assert (hasEdgeb g u v = true) as Hb by congruence.
  destruct (reachable_Inv g Hg) as ([Hc _] & _).
  destruct (removeEdge_ok g u v Hc Hb) as (g' & Hrun & Ha & Hn & He & _).
  assert (∀ x y, hasEdgeb g' x y = true ↔
            hasEdgeb g x y = true ∧ ¬ (x = u ∧ y = v) ∧ ¬ (x = v ∧ y = u))
    as Hcut by (intros; by apply hasEdgeb_cut).
  assert (dom (adj g') = dom (adj g)) as Hd by (by rewrite Ha, !dom_alter_L).
  exists g'. rewrite !hasEdge_run. split_and!; try done.
  - destruct (hasEdgeb g' u v) eqn:E; [|done]. apply Hcut in E. tauto.
  - destruct (hasEdgeb g' v u) eqn:E; [|done]. apply Hcut in E. tauto.
  - rewrite He. apply lookup_delete_eq.
  - intros x y H1 H2. rewrite !hasEdge_run. simpl. f_equal.
    destruct (hasEdgeb g' x y) eqn:E1, (hasEdgeb g x y) eqn:E2; try done.
    + apply Hcut in E1. destruct E1. congruence.
    + assert (hasEdgeb g' x y = true) by (by apply Hcut). congruence.
  - intros k Hk. rewrite He. by rewrite lookup_delete_ne.
  - intros x. rewrite !hasNode_run, !node_run, (hasNodeb_dom _ _ Hd), Hn.
    by destruct (hasNodeb g x).
Qed.

Lemma X6_removeEdge_removes_only_that_edge_witness :
  ∃ g', removeEdge (VNum 1) (VStr "A")
          (exec [OpAddNode (VNum 1) ∅; OpAddNode (VStr "A") ∅;
                 OpAddEdge (VStr "A") (VNum 1) ∅] empty_graph) = (Ok (), g').
Proof.
  destruct (X6_removeEdge_removes_only_that_edge
              (exec [OpAddNode (VNum 1) ∅; OpAddNode (VStr "A") ∅;
                     OpAddEdge (VStr "A") (VNum 1) ∅] empty_graph)
              (VNum 1) (VStr "A")) as (g' & H & _).
  - by eexists.
  - vm_compute. reflexivity.
  - exists g'. exact H.
Defined.

(** X7: in a reachable state the order of the two endpoints does not matter
    to [removeEdge]: [removeEdge(u, v)] and [removeEdge(v, u)] succeed or
    throw together and leave the container in the same state. *)
Theorem X7_removeEdge_either_direction (g : Graph) (u v : value) :
  reachable g →
  (removeEdge u v g).2 = (removeEdge v u g).2 ∧
  ((removeEdge u v g).1 = Ok () ↔ (removeEdge v u g).1 = Ok ()).
Proof.
  intros Hg. destruct (reachable_Inv g Hg) as ([Hc _] & _).
  destruct (hasEdgeb g u v) eqn:Huv.
  - assert (hasEdgeb g v u = true) as Hvu by (by rewrite hasEdgeb_sym).
    destruct (removeEdge_ok g u v Hc Huv) as (g1 & -> & Ha1 & Hn1 & He1 & Ho1).
    destruct (removeEdge_ok g v u Hc Hvu) as (g2 & -> & Ha2 & Hn2 & He2 & Ho2).
    split; [|done]. simpl. destruct g1, g2; simpl in *.
    rewrite Ha1, Ha2, Hn1, Hn2, He1, He2, Ho1, Ho2.
    by rewrite cut_swap, (_edgeKey_sym v u).
  - assert (hasEdgeb g v u = false) as Hvu by (by rewrite hasEdgeb_sym).
    rewrite !removeEdge_run, Huv, Hvu. done.
Qed.

Lemma X7_removeEdge_either_direction_witness :
  (removeEdge (VNum 1) (VStr "A")
     (exec [OpAddNode (VNum 1) ∅; OpAddNode (VStr "A") ∅;
            OpAddEdge (VStr "A") (VNum 1) ∅] empty_graph)).2 =
  (removeEdge (VStr "A") (VNum 1)
     (exec [OpAddNode (VNum 1) ∅; OpAddNode (VStr "A") ∅;
            OpAddEdge (VStr "A") (VNum 1) ∅] empty_graph)).2.
Proof.
  apply X7_removeEdge_either_direction. by eexists.
Defined.

(** X8: in a reachable state, for two nodes without ["|"] in their
    identifiers that are not joined by an edge, [addEdge(u, v, attr)] followed
    by [removeEdge(u, v)] succeeds and gives back the adjacency sets, the node
    attribute objects and the edge attribute objects of before. *)
Theorem X8_addEdge_removeEdge_round_trip (g : Graph) (u v : value)
    (attr : gmap string value) :
  reachable g → plain u = true → plain v = true →
  hasNode u g = (Ok true, g) → hasNode v g = (Ok true, g) →
  hasEdge u v g = (Ok false, g) →
  ∃ g1 g2, addEdge u v attr g = (Ok (), g1) ∧
    removeEdge u v g1 = (Ok (), g2) ∧
    adj g2 = adj g ∧ nodesData g2 = nodesData g ∧ edgesData g2 = edgesData g.
Proof.
  intros Hg Hpu Hpv Hnu Hnv Huv.
  rewrite hasNode_run in Hnu, Hnv. rewrite hasEdge_run in Huv.
  assert (hasNodeb g u = true) as Hbu by congruence.
  assert (hasNodeb g v = true) as Hbv by congruence.
  assert (hasEdgeb g u v = false) as Hbuv by congruence.
  destruct (reachable_Inv g Hg) as ([Hc _] & _).
  assert (hasEdgeb g v u = false) as Hbvu by (by rewrite hasEdgeb_sym).
  pose proof (no_edge_no_record g u v Hg Hpu Hpv Hbuv) as Hnone.
  destruct (addEdge_ok g u v attr) as (g1 & Hrun1 & Ha1 & Hn1 & He1);
    [by apply plain_valid..|done|done|].
  assert (reachable g1) as Hg1.
  { replace g1 with (run_op (OpAddEdge u v attr) g).2
      by (simpl; by rewrite Hrun1).
    by apply reachable_step. }
  destruct (reachable_Inv g1 Hg1) as ([Hc1 _] & _).
  assert (hasEdgeb g1 u v = true) as Huv1.
  { apply (hasEdgeb_link g g1 u v u v Ha1 Hbu Hbv). auto. }
  destruct (removeEdge_ok g1 u v Hc1 Huv1) as (g2 & Hrun2 & Ha2 & Hn2 & He2 & _).
  exists g1, g2. split_and!; try done; [|congruence|].
  - rewrite Ha2, Ha1. apply map_eq. intros x.
    rewrite lookup_cut, lookup_link.
    destruct (adj g !! x) as [sx|] eqn:Hsx; simpl; [|done]. f_equal.
    assert (x = u → v ∉ sx).
    { intros -> Hin. assert (hasEdgeb g u v = true); [|congruence].
      apply hasEdgeb_true. eauto. }
    assert (x = v → u ∉ sx).
    { intros -> Hin. assert (hasEdgeb g v u = true); [|congruence].
      apply hasEdgeb_true. eauto. }
    repeat case_decide; set_solver.
  - rewrite He2, He1, Hnone. by rewrite delete_insert_id.
Qed.

Lemma X8_addEdge_removeEdge_round_trip_witness :
  ∃ g1 g2,
    addEdge (VNum 1) (VStr "A") {["w" := VNum 5]}
      (exec [OpAddNode (VNum 1) ∅; OpAddNode (VStr "A") ∅] empty_graph)
      = (Ok (), g1) ∧
    removeEdge (VNum 1) (VStr "A") g1 = (Ok (), g2) ∧
    adj g2 = adj (exec [OpAddNode (VNum 1) ∅; OpAddNode (VStr "A") ∅]
                    empty_graph) ∧
    nodesData g2 = nodesData (exec [OpAddNode (VNum 1) ∅;
                                    OpAddNode (VStr "A") ∅] empty_graph) ∧
    edgesData g2 = edgesData (exec [OpAddNode (VNum 1) ∅;
                                    OpAddNode (VStr "A") ∅] empty_graph).
Proof.
  apply X8_addEdge_removeEdge_round_trip.
  - by eexists.
  - reflexivity.
  - reflexivity.
  - vm_compute. reflexivity.
  - vm_compute. reflexivity.
  - vm_compute. reflexivity.
Defined.

(** X9: in a reachable state, [addNode(id, attr)] of a new number or string
    followed by [removeNode(id)] succeeds and gives back the adjacency sets,
    the node attribute objects and the edge attribute objects of before. *)
Theorem X9_addNode_removeNode_round_trip (g : Graph) (id : value)
    (attr : gmap string value) :
  reachable g → typeof id ≠ TOtherKind → hasNode id g = (Ok false, g) →
  ∃ g1 g2, addNode id attr g = (Ok (), g1) ∧
    removeNode id g1 = (Ok (), g2) ∧
    adj g2 = adj g ∧ nodesData g2 = nodesData g ∧ edgesData g2 = edgesData g.
Proof.
  intros Hg Hty Hn. rewrite hasNode_run in Hn.
  assert (hasNodeb g id = false) as Hb by congruence.
  destruct (reachable_Inv g Hg) as ([Hc He] & Hk & _).
  destruct (addNode_ok g id attr Hty Hb) as (g1 & Hrun1 & Ha1 & Hn1 & He1).
  assert (adj_consistent g1) as Hc1.
  { replace g1 with (addNode id attr g).2 by (by rewrite Hrun1).
    by apply adj_inv_addNode. }
  assert (hasNodeb g1 id = true) as Hb1.
  { apply hasNodeb_true. rewrite Ha1, lookup_insert_eq. eauto. }
  destruct (removeNode_ok g1 id Hc1 Hb1)
    as (g2 & s & Hrun2 & Hs & Ha2 & Hn2 & He2 & _).
  rewrite Ha1, lookup_insert_eq in Hs. injection Hs as <-.
  rewrite elements_empty in Ha2, He2. simpl in Ha2, He2.
  apply hasNodeb_false in Hb.
  exists g1, g2. split_and!; try done.
  - rewrite Ha2, Ha1. by apply delete_insert_id.
  - rewrite Hn2, Hn1. apply delete_insert_id.
    apply not_elem_of_dom. rewrite <- Hk. by apply not_elem_of_dom.
  - congruence.
Qed.

Lemma X9_addNode_removeNode_round_trip_witness :
  ∃ g1 g2,
    addNode (VStr "B") {["c" := VNum 1]}
      (exec [OpAddNode (VNum 1) ∅] empty_graph) = (Ok (), g1) ∧
    removeNode (VStr "B") g1 = (Ok (), g2) ∧
    adj g2 = adj (exec [OpAddNode (VNum 1) ∅] empty_graph) ∧
    nodesData g2 = nodesData (exec [OpAddNode (VNum 1) ∅] empty_graph) ∧
    edgesData g2 = edgesData (exec [OpAddNode (VNum 1) ∅] empty_graph).
Proof.
  apply X9_addNode_removeNode_round_trip.
  - by eexists.
  - simpl. discriminate.
  - vm_compute. reflexivity.
Defined.

Lemma size_delete_Some {A} (m : gmap value A) (i : value) :
  is_Some (m !! i) → size m = S (size (delete i m)).
Proof.
  intros [x Hx]. rewrite <- (insert_delete_id m i x) at 1 by done.
  apply map_size_insert_None, lookup_delete_eq.
Qed.

(** X10: in a reachable state, [removeNode(u)] on a node takes exactly one
    node away and leaves everything that does not touch [u]: every other node
    stays a node with the same attribute object, [hasEdge] is unchanged
    between nodes other than [u], and [edge] is unchanged between identifiers
    other than [u] that contain no ["|"]. *)
Theorem X10_removeNode_keeps_the_rest (g : Graph) (u : value) :
  reachable g → hasNode u g = (Ok true, g) →
  ∃ g' n, removeNode u g = (Ok (), g') ∧
    numberOfNodes g = (Ok (S n), g) ∧ numberOfNodes g' = (Ok n, g') ∧
    (∀ x, x ≠ u →
       (hasNode x g').1 = (hasNode x g).1 ∧ (node x g').1 = (node x g).1) ∧
    (∀ x y, x ≠ u → y ≠ u → (hasEdge x y g').1 = (hasEdge x y g).1) ∧
    (∀ x y, x ≠ u → y ≠ u → plain x = true → plain y = true →
       (edge x y g').1 = (edge x y g).1).
Proof.
  intros Hg Hu. rewrite hasNode_run in Hu.
  assert (hasNodeb g u = true) as Hb by congruence.
  destruct (reachable_Inv g Hg) as ([Hc _] & _ & Hval & _).
  destruct (removeNode_ok g u Hc Hb) as (g' & s & Hrun & Hs & Ha & Hn & He & _).
  assert (∀ x y, hasEdgeb g' x y = hasEdgeb g x y && bool_decide (x ≠ u)
                                   && bool_decide (y ≠ u)) as Hedge.
  { intros x y.
    pose proof (hasEdgeb_removeNode g g' u s x y Hc Hs Ha) as Hiff.
    destruct (hasEdgeb g' x y) eqn:E1.
    - destruct Hiff as [(-> & ? & ?) _]; [done|].
      by rewrite !bool_decide_eq_true_2.
    - destruct (hasEdgeb g x y) eqn:E2; [|done].
      repeat case_bool_decide; simpl; try done.
      destruct Hiff as [_ Hiff]. by apply Hiff. }
  assert (∀ x, x ≠ u → hasNodeb g' x = hasNodeb g x) as Hnode.
  { intros x Hx. unfold hasNodeb. apply bool_decide_ext.
    rewrite Ha, lookup_delete_ne, <- !elem_of_dom, unlink_dom; done. }
  exists g', (size (adj g')).
  rewrite !numberOfNodes_run. split_and!; try done.
  - do 2 f_equal. rewrite Ha, <- (size_adj_dom g (unlink u (elements s) g))
      by apply unlink_dom.
    apply size_delete_Some. apply elem_of_dom. rewrite unlink_dom.
    apply elem_of_dom. eauto.
  - intros x Hx. rewrite !hasNode_run, !node_run, (Hnode x Hx), Hn.
    rewrite lookup_delete_ne by done. by destruct (hasNodeb g x).
  - intros x y Hx Hy. rewrite !hasEdge_run. simpl.
    by rewrite Hedge, !bool_decide_eq_true_2, !andb_true_r.
  - intros x y Hx Hy Hpx Hpy. rewrite !edge_run, Hedge.
    rewrite !bool_decide_eq_true_2, !andb_true_r by done.
    destruct (hasEdgeb g x y); [|done]. simpl. f_equal.
    rewrite He, unlink_edgesData. case_decide as Hk; [|done].
    apply list_elem_of_fmap in Hk as (nbr & Hk & Hnbr%elem_of_elements).
    destruct (Hc u s nbr Hs Hnbr) as (t & Ht & _).
    apply _edgeKey_plain_unique in Hk; [|done|done|apply Hval; eauto..].
    destruct Hk as [[? ?]|[? ?]]; by subst.
Qed.

Lemma X10_removeNode_keeps_the_rest_witness :
  ∃ g', removeNode (VStr "A")
          (exec [OpAddNode (VNum 1) ∅; OpAddNode (VNum 2) ∅;
                 OpAddNode (VStr "A") ∅; OpAddEdge (VNum 1) (VNum 2) ∅;
                 OpAddEdge (VNum 1) (VStr "A") ∅] empty_graph) = (Ok (), g') ∧
    (hasEdge (VNum 1) (VNum 2) g').1 = Ok true.
Proof.
  destruct (X10_removeNode_keeps_the_rest
              (exec [OpAddNode (VNum 1) ∅; OpAddNode (VNum 2) ∅;
                     OpAddNode (VStr "A") ∅; OpAddEdge (VNum 1) (VNum 2) ∅;
                     OpAddEdge (VNum 1) (VStr "A") ∅] empty_graph)
              (VStr "A")) as (g' & n & H & _ & _ & _ & He & _).
  - by eexists.
  - vm_compute. reflexivity.
  - exists g'. split; [exact H|].
    rewrite (He (VNum 1) (VNum 2)); [|discriminate..].
    vm_compute. reflexivity.
Defined.

(** X11: in a reachable state, a node that is removed and added again comes
    back without any of its former edges: [removeNode(u)] then
    [addNode(u, attr)] succeed, and afterwards [neighbors(u)] is empty and
    [hasEdge(u, v)] and [hasEdge(v, u)] are false for every [v]. *)
Theorem X11_readded_node_has_no_edges (g : Graph) (u : value)
    (attr : gmap string value) :
  reachable g → hasNode u g = (Ok true, g) →
  ∃ g1 g2, removeNode u g = (Ok (), g1) ∧ addNode u attr g1 = (Ok (), g2) ∧
    neighbors u g2 = (Ok [], g2) ∧
    ∀ v, hasEdge u v g2 = (Ok false, g2) ∧ hasEdge v u g2 = (Ok false, g2).
Proof.
  intros Hg Hu. rewrite hasNode_run in Hu.
  assert (hasNodeb g u = true) as Hb by congruence.
  destruct (reachable_Inv g Hg) as ([Hc _] & _ & Hval & _).
  destruct (removeNode_ok g u Hc Hb) as (g1 & s & Hrun1 & Hs & Ha1 & _).
  assert (hasNodeb g1 u = false) as Hb1.
  { apply hasNodeb_false. rewrite Ha1. apply lookup_delete_eq. }
  destruct (addNode_ok g1 u attr) as (g2 & Hrun2 & Ha2 & _);
    [apply Hval; eauto|done|].
  assert (reachable g2) as Hg2.
  { replace g2 with (run_op (OpAddNode u attr)
                       (run_op (OpRemoveNode u) g).2).2.
    - by do 2 apply reachable_step.
    - simpl. rewrite Hrun1. simpl. by rewrite Hrun2. }
  destruct (reachable_Inv g2 Hg2) as ([Hc2 _] & _).
  assert (adj g2 !! u = Some ∅) as Hu2 by (by rewrite Ha2, lookup_insert_eq).
  assert (∀ v, hasEdgeb g2 u v = false) as Huv.
  { intros v. destruct (hasEdgeb g2 u v) eqn:E; [|done].
    apply hasEdgeb_true in E as (s' & Hs' & Hin). set_solver. }
  exists g1, g2. rewrite neighbors_run, Hu2, elements_empty.
  split_and!; try done.
  intros v. rewrite !hasEdge_run, (hasEdgeb_sym g2 v u), Huv; done.
Qed.

Lemma X11_readded_node_has_no_edges_witness :
  ∃ g1 g2,
    removeNode (VNum 1)
      (exec [OpAddNode (VNum 1) ∅; OpAddNode (VNum 2) ∅;
             OpAddEdge (VNum 1) (VNum 2) ∅] empty_graph) = (Ok (), g1) ∧
    addNode (VNum 1) ∅ g1 = (Ok (), g2) ∧
    neighbors (VNum 1) g2 = (Ok [], g2) ∧
    ∀ v, hasEdge (VNum 1) v g2 = (Ok false, g2) ∧
         hasEdge v (VNum 1) g2 = (Ok false, g2).
Proof.
  apply X11_readded_node_has_no_edges.
  - by eexists.
  - vm_compute. reflexivity.
Defined.

(** X12: [neighbors(id)] throws for an identifier that is no node and leaves
    the container alone; in a reachable state, for a node it returns a
    sequence without repetitions whose members are exactly the [v] with
    [hasEdge(id, v)], each of them a node that has [id] among its own
    [neighbors]. *)
Theorem X12_neighbors_lists_adjacent_nodes (g : Graph) (id : value) :
  reachable g →
  (hasNode id g = (Ok false, g) →
     neighbors id g = (Throw (NodeNotFound id), g)) ∧
  (hasNode id g = (Ok true, g) →
     ∃ l, neighbors id g = (Ok l, g) ∧ NoDup l ∧
       (∀ v, v ∈ l ↔ hasEdge id v g = (Ok true, g)) ∧
       (∀ v, v ∈ l → hasNode v g = (Ok true, g) ∧
          ∃ l', neighbors v g = (Ok l', g) ∧ id ∈ l')).
Proof.
  intros Hg. destruct (reachable_Inv g Hg) as ([Hc _] & _).
  rewrite !hasNode_run, neighbors_run. split.
  - intros [= Hn]. apply hasNodeb_false in Hn. by rewrite Hn.
  - intros [= Hn]. apply hasNodeb_true in Hn as [s Hs]. rewrite Hs.
    exists (elements s). split_and!; [done|apply NoDup_elements|..].
    + intros v. rewrite elem_of_elements, hasEdge_run. split.
      * intros Hv. do 2 f_equal. apply hasEdgeb_true. eauto.
      * intros [= Hv]. apply hasEdgeb_true in Hv as (s' & Hs' & Hv).
        congruence.
    + intros v Hv%elem_of_elements.
      destruct (Hc id s v Hs Hv) as (t & Ht & Hid).
      rewrite hasNode_run, neighbors_run, Ht. split.
      * do 2 f_equal. apply hasNodeb_true. eauto.
      * exists (elements t). by rewrite elem_of_elements.
Qed.

Lemma X12_neighbors_lists_adjacent_nodes_witness :
  ∃ l, neighbors (VNum 1)
         (exec [OpAddNode (VNum 1) ∅; OpAddNode (VNum 2) ∅;
                OpAddEdge (VNum 2) (VNum 1) ∅] empty_graph)
       = (Ok l, exec [OpAddNode (VNum 1) ∅; OpAddNode (VNum 2) ∅;
                      OpAddEdge (VNum 2) (VNum 1) ∅] empty_graph) ∧
       NoDup l.
Proof.
  destruct (proj2 (X12_neighbors_lists_adjacent_nodes
                     (exec [OpAddNode (VNum 1) ∅; OpAddNode (VNum 2) ∅;
                            OpAddEdge (VNum 2) (VNum 1) ∅] empty_graph)
                     (VNum 1) (ex_intro _ _ eq_refl)))
    as (l & H & Hnd & _).
  - vm_compute. reflexivity.
  - exists l. split; [exact H|exact Hnd].
Defined.

(** X13: in any state of the container, [nodes()] returns every node
    exactly once, and [numberOfNodes()] is the length of that sequence. *)
Theorem X13_nodes_lists_every_node_once (g : Graph) :
  ∃ l, nodes g = (Ok l, g) ∧ NoDup l ∧
    (∀ x, x ∈ l ↔ hasNode x g = (Ok true, g)) ∧
    numberOfNodes g = (Ok (length l), g).
Proof.
  exists (elements (dom (adj g))). split_and!; [done|apply NoDup_elements|..].
  - intros x. rewrite elem_of_elements, elem_of_dom, hasNode_run. split.
    + intros Hx. do 2 f_equal. by apply hasNodeb_true.
    + intros [= Hx]. by apply hasNodeb_true.
  - rewrite numberOfNodes_run. do 2 f_equal. by rewrite <- size_dom.
Qed.

(** X14: in a reachable state, for an edge between two identifiers without
    ["|"], [edge(u, v)] and [edge(v, u)] return an attribute object (not
    [undefined]), the same one. *)
Theorem X14_edge_returns_object_without_pipe (g : Graph) (u v : value) :
  reachable g → plain u = true → plain v = true →
  hasEdge u v g = (Ok true, g) →
  ∃ o, edge u v g = (Ok (Some o), g) ∧ edge v u g = (Ok (Some o), g).
Proof.
  intros Hg Hu Hv Huv. rewrite hasEdge_run in Huv.
  assert (hasEdgeb g u v = true) as Hb by congruence.
  destruct (reachable_Inv g Hg) as ([Hc _] & _).
  destruct (reachable_recorded g Hg u v Hb Hu Hv) as [o Ho].
  exists o. rewrite !edge_run, (hasEdgeb_sym g v u), Hb by done.
  by rewrite (_edgeKey_sym v u), Ho.
Qed.

Lemma X14_edge_returns_object_without_pipe_witness :
  ∃ o, edge (VNum 1) (VStr "A")
         (exec [OpAddNode (VNum 1) ∅; OpAddNode (VStr "A") ∅;
                OpAddEdge (VStr "A") (VNum 1) ∅] empty_graph)
       = (Ok (Some o), exec [OpAddNode (VNum 1) ∅; OpAddNode (VStr "A") ∅;
                             OpAddEdge (VStr "A") (VNum 1) ∅] empty_graph) ∧
       edge (VStr "A") (VNum 1)
         (exec [OpAddNode (VNum 1) ∅; OpAddNode (VStr "A") ∅;
                OpAddEdge (VStr "A") (VNum 1) ∅] empty_graph)
       = (Ok (Some o), exec [OpAddNode (VNum 1) ∅; OpAddNode (VStr "A") ∅;
                             OpAddEdge (VStr "A") (VNum 1) ∅] empty_graph).
Proof.
  apply X14_edge_returns_object_without_pipe.
  - by eexists.
  - reflexivity.
  - reflexivity.
  - vm_compute. reflexivity.
Defined.

Lemma addNode_dom id attr g :
  dom (adj (addNode id attr g).2) ⊆ {[id]} ∪ dom (adj g).
Proof.
  rewrite addNode_run. case_bool_decide; [set_solver|].
  destruct (hasNodeb g id); [set_solver|]. simpl.
  rewrite dom_insert_L. set_solver.
Qed.

Lemma edges_loop_plain g es :
  reachable g →
  (∀ id, hasNodeb g id = true → plain id = true) →
  (∀ k o, (k, o) ∈ es → edgesData g !! k = Some o) →
  ∃ l, edges_loop es g = (Ok l, g) ∧
    (∀ u v o, (u, v, o) ∈ l →
       hasEdgeb g u v = true ∧ edgesData g !! _edgeKey u v = Some o) ∧
    (∀ k o, (k, o) ∈ es → ∃ a b, (a, b, o) ∈ l ∧ k = _edgeKey a b).
Proof.
  intros Hg Hplain.
  destruct (reachable_Inv g Hg) as ([Hc He] & _ & Hval & _).
  induction es as [|[k o] es IH]; intros Hes.
  - exists []. split_and!; [done|..].
    + by intros ? ? ? ?%elem_of_nil.
    + by intros ? ? ?%elem_of_nil.
  - destruct IH as (l & Hl & Hall & Hkeys); [intros; apply Hes; set_solver|].
    assert (edgesData g !! k = Some o) as Hko by (apply Hes; set_solver).
    destruct (He k o Hko) as (x & y & s & Hx & Hy & ->).
    destruct (Hc x s y Hx Hy) as (t & Ht & Hxt).
    assert (hasNodeb g x = true) as Hnx by (apply hasNodeb_true; eauto).
    assert (hasNodeb g y = true) as Hny by (apply hasNodeb_true; eauto).
    destruct (_edgeKey_shape x y) as (a & b & Hk & Hab & _);
      [by apply Hval, hasNodeb_true..|].
    assert (plain a = true ∧ plain b = true ∧ hasEdgeb g a b = true ∧
            _edgeKey a b = _edgeKey x y) as (Hpa & Hpb & Hab' & Hkk).
    { destruct Hab as [[-> ->]|[-> ->]]; split_and!; auto.
      - apply hasEdgeb_true; eauto.
      - apply hasEdgeb_true; eauto.
      - apply _edgeKey_sym. }
    exists ((a, b, o) :: l). split_and!.
    + simpl. unfold bind, edges_entry. simpl. rewrite Hk.
      rewrite split_first by (by apply _typedId_pipe_free).
      rewrite split_pipe_free by (by apply _typedId_pipe_free).
      rewrite !untyped__typedId by (by apply plain_valid).
      unfold ret at 1. by rewrite Hl.
    + intros u v o' [Heq|Hin]%elem_of_cons; [|by apply Hall].
      simplify_eq. by rewrite Hkk.
    + intros k' o' [Heq|Hin]%elem_of_cons.
      * simplify_eq. exists a, b. split; [left|done].
      * destruct (Hkeys k' o' Hin) as (a' & b' & Hin' & ->).
        exists a', b'. split; [by right|done].
Qed.

(** X15: in a reachable state where no node is a string with a ["|"] in it,
    [edges()] returns as many entries as [numberOfEdges()] counts, every entry
    [(u, v, attr)] is an edge for which [edge(u, v)] returns that very object,
    and every edge appears in it, in one of its two directions. *)
Theorem X15_edges_round_trip_without_pipe (g : Graph) :
  reachable g →
  (∀ id, hasNode id g = (Ok true, g) → plain id = true) →
  ∃ l, edges g = (Ok l, g) ∧ numberOfEdges g = (Ok (length l), g) ∧
    (∀ u v o, (u, v, o) ∈ l →
       hasEdge u v g = (Ok true, g) ∧ edge u v g = (Ok (Some o), g)) ∧
    (∀ u v, hasEdge u v g = (Ok true, g) →
       ∃ o, (u, v, o) ∈ l ∨ (v, u, o) ∈ l).
Proof.
  intros Hg Hplain.
  assert (∀ id, hasNodeb g id = true → plain id = true) as Hplain'.
  { intros id Hid. apply Hplain. by rewrite hasNode_run, Hid. }
  destruct (reachable_Inv g Hg) as ([Hc _] & _).
  destruct (edges_loop_plain g (map_to_list (edgesData g)) Hg Hplain')
    as (l & Hl & Hall & Hkeys).
  { intros k o. apply elem_of_map_to_list. }
  exists l. split_and!; [done|..].
  - unfold numberOfEdges, bind, get, ret. do 2 f_equal.
    apply (f_equal fst), edges_loop_length in Hl.
    by rewrite Hl, length_map_to_list.
  - intros u v o Hin. destruct (Hall u v o Hin) as [Huv Ho].
    by rewrite hasEdge_run, edge_run, Huv, Ho.
  - intros u v. rewrite hasEdge_run. intros [= Huv].
    assert (hasNodeb g u = true ∧ hasNodeb g v = true) as [Hnu Hnv].
    { apply hasEdgeb_true in Huv as (s & Hs & Hv).
      destruct (Hc _ _ _ Hs Hv) as (t & Ht & _).
      split; apply hasNodeb_true; eauto. }
    destruct (reachable_recorded g Hg u v Huv) as [o Ho]; [by apply Hplain'..|].
    destruct (Hkeys (_edgeKey u v) o) as (a & b & Hin & Hk).
    { by apply elem_of_map_to_list. }
    destruct (Hall a b o Hin) as [Hab _].
    assert (hasNodeb g a = true ∧ hasNodeb g b = true) as [Hna Hnb].
    { apply hasEdgeb_true in Hab as (s & Hs & Hv).
      destruct (Hc _ _ _ Hs Hv) as (t & Ht & _).
      split; apply hasNodeb_true; eauto. }
    apply _edgeKey_plain_unique in Hk;
      [|by apply Hplain'|by apply Hplain'|by apply plain_valid, Hplain'..].
    exists o. destruct Hk as [[-> ->]|[-> ->]]; auto.
Qed.

Lemma X15_edges_round_trip_without_pipe_witness :
  ∃ l, edges (exec [OpAddNode (VNum 1) ∅; OpAddNode (VStr "A") ∅;
                    OpAddEdge (VStr "A") (VNum 1) ∅] empty_graph)
       = (Ok l, exec [OpAddNode (VNum 1) ∅; OpAddNode (VStr "A") ∅;
                      OpAddEdge (VStr "A") (VNum 1) ∅] empty_graph) ∧
       numberOfEdges (exec [OpAddNode (VNum 1) ∅; OpAddNode (VStr "A") ∅;
                            OpAddEdge (VStr "A") (VNum 1) ∅] empty_graph)
       = (Ok (length l),
          exec [OpAddNode (VNum 1) ∅; OpAddNode (VStr "A") ∅;
                OpAddEdge (VStr "A") (VNum 1) ∅] empty_graph).
Proof.
  destruct (X15_edges_round_trip_without_pipe
              (exec [OpAddNode (VNum 1) ∅; OpAddNode (VStr "A") ∅;
                     OpAddEdge (VStr "A") (VNum 1) ∅] empty_graph))
    as (l & H1 & H2 & _).
  - by eexists.
  - intros id Hid. rewrite hasNode_run in Hid. injection Hid as Hid.
    apply hasNodeb_true, elem_of_dom in Hid.
    cbv beta iota delta [exec foldl run_op] in Hid.
    rewrite (proj1 (addEdge_frame _ _ _ _)) in Hid.
    apply addNode_dom, elem_of_union in Hid as [Hid%elem_of_singleton|Hid];
      [by subst|].
    apply addNode_dom, elem_of_union in Hid as [Hid%elem_of_singleton|Hid];
      [by subst|].
    by apply elem_of_dom in Hid as [? ?].
  - exists l. split; [exact H1|exact H2].
Defined.

(** X16: the key of a pair of identifiers without ["|"] identifies the pair:
    it equals the key of a pair of numbers or strings exactly when the two
    pairs are the same up to order. *)
Theorem X16_edge_key_identifies_pair (u v x y : value) :
  plain u = true → plain v = true →
  typeof x ≠ TOtherKind → typeof y ≠ TOtherKind →
  _edgeKey u v = _edgeKey x y ↔ (u = x ∧ v = y) ∨ (u = y ∧ v = x).
Proof.
  intros Hu Hv Hx Hy. split.
  - by apply _edgeKey_plain_unique.
  - intros [[-> ->]|[-> ->]]; [done|apply _edgeKey_sym].
Qed.

Lemma X16_edge_key_identifies_pair_witness :
  _edgeKey (VNum 1) (VStr "A") = _edgeKey (VStr "A") (VNum 1) ↔
  (VNum 1 = VStr "A" ∧ VStr "A" = VNum 1) ∨
  (VNum 1 = VNum 1 ∧ VStr "A" = VStr "A").
Proof.
  apply X16_edge_key_identifies_pair; first [reflexivity | discriminate].
Defined.

(** X17: the typed form of a number or a string reads back as the same
    identifier by the decoding that [edges()] applies to a piece of a key. *)
Theorem X17_typed_id_round_trip (v : value) :
  typeof v ≠ TOtherKind → untyped (_typedId v) = v.
Proof. apply untyped__typedId. Qed.

Lemma X17_typed_id_round_trip_witness :
  untyped (_typedId (VNum (-12))) = VNum (-12).
Proof. apply X17_typed_id_round_trip. discriminate. Defined.


(** X18: in a reachable state, for two nodes [u] and [v] whose identifiers
    contain no ["|"], [addEdge(u, v, attr)] succeeds and [edge(u, v)] then
    returns an attribute object.  If [u] and [v] were not joined by an edge,
    it is a new object (its identity is that of no object stored before)
    whose fields are those of [attr]; if they were, it is the object that
    [edge(u, v)] returned before, each field of [attr] written over it and
    its other fields kept.  So on two such nodes without an edge,
    [addEdge(u, v, {a: x})] then [addEdge(u, v, {b: y})] make [edge(u, v)]
    return an object with exactly the fields [a: x] and [b: y]. *)
Theorem X18_addEdge_stores_or_merges_without_pipe :
  (∀ g u v attr,
     reachable g → plain u = true → plain v = true →
     hasNode u g = (Ok true, g) → hasNode v g = (Ok true, g) →
     ∃ g' o, addEdge u v attr g = (Ok (), g') ∧
       edge u v g' = (Ok (Some o), g') ∧
       (hasEdge u v g = (Ok false, g) →
          fields o = attr ∧
          (∀ k o', nodesData g !! k = Some o' → oid o' ≠ oid o) ∧
          (∀ k o', edgesData g !! k = Some o' → oid o' ≠ oid o)) ∧
       (hasEdge u v g = (Ok true, g) →
          ∃ o0, edge u v g = (Ok (Some o0), g) ∧ oid o = oid o0 ∧
            ∀ f, fields o !! f =
                   match attr !! f with
                   | Some x => Some x
                   | None => fields o0 !! f
                   end)) ∧
  (∀ g u v x y,
     reachable g → plain u = true → plain v = true →
     hasNode u g = (Ok true, g) → hasNode v g = (Ok true, g) →
     hasEdge u v g = (Ok false, g) →
     ∃ g' o,
       (addEdge u v {["a" := x]};;; addEdge u v {["b" := y]};;; edge u v) g
         = (Ok (Some o), g') ∧
       fields o = {["a" := x; "b" := y]}).
Proof.
  split.
  - intros g u v attr Hg Hpu Hpv Hnu Hnv.
    rewrite hasNode_run in Hnu, Hnv.
    assert (hasNodeb g u = true) as Hbu by congruence.
    assert (hasNodeb g v = true) as Hbv by congruence.
    destruct (addEdge_record g u v attr Hg Hbu Hbv)
      as (g' & o & Hrun & _ & _ & Huv & Ho & Hcase).
    exists g', o. split_and!; [done|by rewrite edge_run, Huv, Ho|..].
    + rewrite hasEdge_run. intros [= Hno].
      by rewrite (no_edge_no_record g u v Hg Hpu Hpv Hno) in Hcase.
    + rewrite hasEdge_run. intros [= Hyes].
      destruct (reachable_recorded g Hg u v Hyes Hpu Hpv) as [o0 Ho0].
      rewrite Ho0 in Hcase. exists o0.
      by rewrite edge_run, Hyes, Ho0.
  - intros g u v x y Hg Hpu Hpv Hnu Hnv Huv.
    rewrite hasNode_run in Hnu, Hnv. rewrite hasEdge_run in Huv.
    assert (hasNodeb g u = true) as Hbu by congruence.
    assert (hasNodeb g v = true) as Hbv by congruence.
    assert (hasEdgeb g u v = false) as Hno by congruence.
    pose proof (no_edge_no_record g u v Hg Hpu Hpv Hno) as Hnone.
    destruct (addEdge_record g u v {["a" := x]} Hg Hbu Hbv)
      as (g1 & o1 & Hrun1 & Hnu1 & Hnv1 & _ & Ho1 & Hcase1).
    rewrite Hnone in Hcase1. destruct Hcase1 as (Hf1 & _).
    assert (reachable g1) as Hg1.
    { replace g1 with (run_op (OpAddEdge u v {["a" := x]}) g).2
        by (simpl; by rewrite Hrun1).
      by apply reachable_step. }
    destruct (addEdge_record g1 u v {["b" := y]} Hg1 Hnu1 Hnv1)
      as (g2 & o2 & Hrun2 & _ & _ & Huv2 & Ho2 & Hcase2).
    rewrite Ho1 in Hcase2. destruct Hcase2 as (_ & Hf2).
    exists g2, o2. split.
    + unfold bind. rewrite Hrun1, Hrun2. by rewrite edge_run, Huv2, Ho2.
    + apply map_eq. intros f. rewrite Hf2, Hf1.
      destruct (decide (f = "a")) as [->|Ha]; [by simplify_map_eq|].
      destruct (decide (f = "b")) as [->|Hb]; by simplify_map_eq.
Qed.

Lemma X18_addEdge_stores_or_merges_without_pipe_witness :
  ∃ g' o,
    (addEdge (VNum 1) (VNum 2) {["a" := VNum 1]};;;
     addEdge (VNum 1) (VNum 2) {["b" := VNum 2]};;;
     edge (VNum 1) (VNum 2))
      (exec [OpAddNode (VNum 1) ∅; OpAddNode (VNum 2) ∅] empty_graph)
      = (Ok (Some o), g') ∧
    fields o = {["a" := VNum 1; "b" := VNum 2]}.
Proof.
  apply (proj2 X18_addEdge_stores_or_merges_without_pipe).
  - by exists [OpAddNode (VNum 1) ∅; OpAddNode (VNum 2) ∅].
  - reflexivity.
  - reflexivity.
  - vm_compute. reflexivity.
  - vm_compute. reflexivity.
  - vm_compute. reflexivity.
Defined.
